(** * LOCAL_BOORU/image_booru.py: prompt normalisation, JSON cache, scan, filter

    A shallow embedding of the metadata pipeline of [image_booru.py]:
    the three text functions ([parse_positive_prompt], [clean_prompt_text],
    [tokenize_prompt]), the JSON cache ([load_cache], [save_cache]), the
    directory scan ([load_images_and_tags], [parse_and_store_tags]) and the
    tag filter of [main].

    Conventions of the model.
    - A Python [str] is a [string]; its characters are the code points
      0..255 (Latin-1).  On that range [str.lower], [str.strip] and the
      [re.IGNORECASE] comparison against an ASCII literal are the functions
      written below.
    - A Python [float] is a binary64 [spec_float] (precision 53, emax 1024).
    - A Python exception is a value of [exn]; a computation that may raise
      returns a [result]; computations with effects run in the monad [M]
      over the [world] (the cache file, the image files opened, the lines
      printed).  Opening the cache file for writing and dumping into it
      can fail, as the state of the file says; [print] is taken to
      succeed.
    - [load_images_and_tags] is the body of the function; the memoisation
      that the [st.cache_data] decorator adds inside one process is not
      modelled.  Paths are joined as [posixpath] does. *)

From Stdlib Require Import ZArith NArith List Bool Ascii String Lia.
From Stdlib Require Import Floats.SpecFloat.
From Stdlib Require Import Sorting.Sorted.
From stdpp Require Import gmap strings.

Local Open Scope string_scope.
Local Open Scope list_scope.

(* ===================================================================== *)
(** * Characters and strings *)
(* ===================================================================== *)

Definition code (c : ascii) : N := N_of_ascii c.

(** [str.isspace] on one code point below 256: TAB..CR, FS..US, space,
    NEL (0x85) and NBSP (0xA0). *)
Definition isspace (c : ascii) : bool :=
  let n := code c in
  ((9 <=? n) && (n <=? 13) || (28 <=? n) && (n <=? 32)
   || (n =? 133) || (n =? 160))%N.

(** [str.lower] on one code point below 256: A..Z and the upper-case
    Latin-1 letters 0xC0..0xDE (the multiplication sign 0xD7 apart). *)
Definition lower_char (c : ascii) : ascii :=
  let n := code c in
  if ((65 <=? n) && (n <=? 90)
      || (192 <=? n) && (n <=? 222) && negb (n =? 215))%N
  then ascii_of_N (n + 32) else c.

(** The character class [[0-9]]. *)
Definition isdigit (c : ascii) : bool :=
  let n := code c in ((48 <=? n) && (n <=? 57))%N.

(** The character class [[()]]. *)
Definition isparen (c : ascii) : bool :=
  let n := code c in ((n =? 40) || (n =? 41))%N.

Definition iscomma (c : ascii) : bool := (code c =? 44)%N.
Definition iscolon (c : ascii) : bool := (code c =? 58)%N.
Definition isdot (c : ascii) : bool := (code c =? 46)%N.

Fixpoint lower (s : string) : string :=
  match s with
  | EmptyString => EmptyString
  | String c r => String (lower_char c) (lower r)
  end.

Fixpoint lstrip (s : string) : string :=
  match s with
  | EmptyString => EmptyString
  | String c r => if isspace c then lstrip r else s
  end.

Fixpoint rstrip (s : string) : string :=
  match s with
  | EmptyString => EmptyString
  | String c r =>
      match rstrip r with
      | EmptyString => if isspace c then EmptyString else String c EmptyString
      | r' => String c r'
      end
  end.

(** [s.strip()] *)
Definition strip (s : string) : string := rstrip (lstrip s).

(** [s.split(",")]: never empty, one more piece than there are commas. *)
Fixpoint split_comma (s : string) : list string :=
  match s with
  | EmptyString => [EmptyString]
  | String c r =>
      if iscomma c then EmptyString :: split_comma r
      else match split_comma r with
           | p :: ps => String c p :: ps
           | [] => [String c EmptyString]
           end
  end.

Fixpoint drop_chars (n : nat) (s : string) : string :=
  match n, s with
  | S k, String _ r => drop_chars k r
  | _, _ => s
  end.

Definition head_is (p : ascii -> bool) (s : string) : bool :=
  match s with
  | EmptyString => false
  | String c _ => p c
  end.

(* ===================================================================== *)
(** * Prompt parsing and cleaning *)
(* ===================================================================== *)

Definition marker : string := "Negative prompt:".

(** A literal of the pattern against the head of the subject, under
    [re.IGNORECASE]. *)
Fixpoint literal_ci (pat s : string) : bool :=
  match pat, s with
  | EmptyString, _ => true
  | String p pat', String c s' =>
      if Ascii.eqb (lower_char p) (lower_char c) then literal_ci pat' s'
      else false
  | String _ _, EmptyString => false
  end.

(** The pattern of [parse_positive_prompt], a greedy dot-star group followed
    by the marker, anchored at the head of [s], with [re.DOTALL]: the
    longest run of the star is tried first and the matcher backs off one
    character at a time.  The result is group 1. *)
Fixpoint match_star_marker (s : string) : option string :=
  match s with
  | EmptyString => if literal_ci marker s then Some EmptyString else None
  | String c r =>
      match match_star_marker r with
      | Some g => Some (String c g)
      | None => if literal_ci marker s then Some EmptyString else None
      end
  end.

(** [re.search]: the start offsets are tried from left to right; group 1
    of the first offset that matches. *)
Fixpoint re_search (s : string) : option string :=
  match match_star_marker s with
  | Some g => Some g
  | None =>
      match s with
      | EmptyString => None
      | String _ r => re_search r
      end
  end.

Definition parse_positive_prompt (metadata_text : string) : string :=
  match re_search metadata_text with
  | Some g => strip g
  | None => strip metadata_text
  end.

(** [re.sub(r"[()]", "", prompt)] *)
Fixpoint remove_parens (s : string) : string :=
  match s with
  | EmptyString => EmptyString
  | String c r =>
      if isparen c then remove_parens r else String c (remove_parens r)
  end.

Fixpoint count_digits (s : string) : nat :=
  match s with
  | EmptyString => 0
  | String c r => if isdigit c then S (count_digits r) else 0
  end.

(** Length of the match of [:[0-9]+(\.[0-9]+)?] at the head of [s]. *)
Definition match_weight (s : string) : option nat :=
  match s with
  | EmptyString => None
  | String c r =>
      if iscolon c then
        match count_digits r with
        | O => None
        | S n =>
            match drop_chars (S n) r with
            | String d r2 =>
                if isdot d then
                  match count_digits r2 with
                  | O => Some (2 + n)
                  | S k => Some (4 + n + k)
                  end
                else Some (2 + n)
            | EmptyString => Some (2 + n)
            end
        end
      else None
  end.

(** [re.sub(r':[0-9]+(\.[0-9]+)?', '', s)]: scan from the left; where the
    pattern matches, drop the match and resume behind it; elsewhere copy
    one character.  [skip] counts the characters of the current match that
    are still to be dropped. *)
Fixpoint sub_weight (skip : nat) (s : string) : string :=
  match s with
  | EmptyString => EmptyString
  | String c r =>
      match skip with
      | S k => sub_weight k r
      | O =>
          match match_weight s with
          | Some n => sub_weight (pred n) r
          | None => String c (sub_weight 0 r)
          end
      end
  end.

Definition clean_prompt_text (prompt : string) : string :=
  let no_parens := remove_parens prompt in
  let cleaned := sub_weight 0 no_parens in
  cleaned.

Definition nonempty (s : string) : bool :=
  match s with
  | EmptyString => false
  | String _ _ => true
  end.

(** [list(set(tags))].  Python leaves the order of a set unspecified; the
    model lists each element once, in the order of last occurrence, and
    no statement below depends on that order. *)
Definition list_set (tags : list string) : list string := remove_dups tags.

Definition tokenize_prompt (prompt : string) : list string :=
  let raw_tags := split_comma prompt in
  let tags :=
    map (fun t => lower (strip t))
        (List.filter (fun t => nonempty (strip t)) raw_tags) in
  list_set tags.

(** The normaliser as [parse_and_store_tags] chains it. *)
Definition extract_tags (raw_text : string) : list string :=
  let positive_part := parse_positive_prompt raw_text in
  let cleaned_str := clean_prompt_text positive_part in
  tokenize_prompt cleaned_str.

(* ===================================================================== *)
(** * Exceptions, results and the effect monad *)
(* ===================================================================== *)

Inductive exn : Type :=
| TypeError
| AttributeError
| OverflowError
| KeyError (key : string)
| OSError (msg : string)
| ValueError (msg : string).

Inductive result (A : Type) : Type :=
| Ok (a : A)
| Raise (e : exn).
Arguments Ok {A} a.
Arguments Raise {A} e.

Definition exn_str (e : exn) : string :=
  match e with
  | TypeError => "TypeError"
  | AttributeError => "AttributeError"
  | OverflowError => "OverflowError"
  | KeyError k => k
  | OSError msg => msg
  | ValueError msg => msg
  end.

(** ** Numbers *)

Definition prec : Z := 53.
Definition emax : Z := 1024.
Definition float : Type := spec_float.

(** The literal [1e-9], that is 0x1.12e0be826d695p-30. *)
Definition eps : float := S754_finite false 4835703278458517 (-82).

Definition isfinite (f : float) : bool :=
  match f with
  | S754_zero _ | S754_finite _ _ _ => true
  | _ => false
  end.

(** A JSON number as [json.load] returns it: an [int] or a [float].  The
    JSON literals [true] and [false] are [int]s 1 and 0 for arithmetic. *)
Inductive pynum : Type :=
| PyInt (z : Z)
| PyFloat (f : float).

(** [float(z)] as the mixed subtraction converts its [int] operand:
    rounded to nearest even, [OverflowError] beyond the binary64 range. *)
Definition float_of_int (z : Z) : result float :=
  match binary_normalize prec emax z 0 false with
  | S754_infinity _ => Raise OverflowError
  | f => Ok f
  end.

(** ** The cache as [json.load] returns it *)

(** The value of an ["mtime"] field. *)
Inductive jfield : Type :=
| JNum (n : pynum)
| JNotNum.            (* a string, null, an array or an object *)

(** The value stored under a path.  A ["tags"] field, when there is one,
    is a list of strings; fields other than ["tags"] and ["mtime"] are
    not modelled. *)
Inductive jvalue : Type :=
| JNotObject          (* a number, string, null or array *)
| JObject (tags : option (list string)) (mtime : option jfield).

(** How writing [CACHE_FILE] fails, when it does: [open(CACHE_FILE, "w")]
    raises and the file is not touched, or the file is opened, hence
    truncated, and [json.dump] raises before the text is complete. *)
Inductive write_fault : Type :=
| OpenFails (e : exn)
| DumpFails (e : exn).

(** The state of [CACHE_FILE].  The model covers files whose top-level JSON
    value is an object, and takes [json.load (json.dump d)] to be [d].
    [Missing], [Corrupt] and [Stored] say what reading finds, and writing
    such a file succeeds; [Faulty wf c] reads as [c] and fails on writing
    as [wf] says. *)
Inductive cache_file : Type :=
| Missing
| Corrupt (e : exn)     (* reading it ([open], [json.load]) raises [e] *)
| Stored (d : gmap string jvalue)
| Faulty (wf : write_fault) (c : cache_file).

(** [os.path.exists(CACHE_FILE)] *)
Fixpoint file_exists (c : cache_file) : bool :=
  match c with
  | Missing => false
  | Corrupt _ | Stored _ => true
  | Faulty _ c' => file_exists c'
  end.

(** [with open(CACHE_FILE) as f: json.load(f)] *)
Fixpoint read_json (c : cache_file) : result (gmap string jvalue) :=
  match c with
  | Stored d => Ok d
  | Corrupt e => Raise e
  | Missing => Raise (OSError "No such file or directory")
  | Faulty _ c' => read_json c'
  end.

Record world : Type := mkWorld {
  disk : cache_file;        (* CACHE_FILE *)
  opened : list string;     (* paths handed to PngImageFile, oldest first *)
  stdout : list string      (* lines printed, oldest first *)
}.

Definition M (A : Type) : Type := world -> result A * world.

Definition ret {A} (a : A) : M A := fun w => (Ok a, w).
Definition raise {A} (e : exn) : M A := fun w => (Raise e, w).
Definition bind {A B} (m : M A) (k : A -> M B) : M B :=
  fun w => match m w with
           | (Ok a, w') => k a w'
           | (Raise e, w') => (Raise e, w')
           end.
(** [try: m except Exception as e: h e] *)
Definition try_except {A} (m : M A) (h : exn -> M A) : M A :=
  fun w => match m w with
           | (Ok a, w') => (Ok a, w')
           | (Raise e, w') => h e w'
           end.
Definition lift {A} (r : result A) : M A := fun w => (r, w).

Declare Scope py_scope.
Delimit Scope py_scope with py.
Notation "x <- m ;; k" := (bind m (fun x => k))
  (at level 100, m at next level, right associativity) : py_scope.
Notation "m ;;; k" := (bind m (fun _ => k))
  (at level 100, right associativity) : py_scope.
Local Open Scope py_scope.

Fixpoint foldM {A B} (f : A -> B -> M A) (l : list B) (a : A) : M A :=
  match l with
  | [] => ret a
  | b :: l' => a' <- f a b ;; foldM f l' a'
  end.

(* ===================================================================== *)
(** * JSON cache logic *)
(* ===================================================================== *)

Definition os_path_exists_cache : M bool :=
  fun w => (Ok (file_exists (disk w)), w).

Definition json_load_cache : M (gmap string jvalue) :=
  fun w => (read_json (disk w), w).

Definition load_cache : M (gmap string jvalue) :=
  b <- os_path_exists_cache ;;
  if negb b then ret ∅
  else try_except json_load_cache (fun _ => ret ∅).

(** What is left of the file when [json.dump] raises part-way: a text
    that [json.load] rejects. *)
Definition truncated : cache_file :=
  Corrupt (ValueError "Expecting value").

(** [open] for writing comes first and truncates the file; then
    [json.dump] streams the text. *)
Definition save_cache (cache_data : gmap string jvalue) : M unit :=
  fun w =>
    match disk w with
    | Faulty (OpenFails e) _ => (Raise e, w)
    | Faulty (DumpFails e) _ =>
        (Raise e,
         mkWorld (Faulty (DumpFails e) truncated) (opened w) (stdout w))
    | Missing | Corrupt _ | Stored _ =>
        (Ok tt, mkWorld (Stored cache_data) (opened w) (stdout w))
    end.

(* ===================================================================== *)
(** * The file system as the scan reads it *)
(* ===================================================================== *)

(** What [PngImagePlugin.PngImageFile(path)] gives. *)
Inductive png : Type :=
| PngBroken (msg : string)                 (* the constructor raises *)
| PngImage (text : option (list string)).  (* [img.text.values()], when
                                              the object has [text] *)

Record file : Type := mkFile {
  f_mtime : option float;   (* [None]: [os.path.getmtime] raises *)
  f_img : png
}.

#[local] Set Warnings "-register-all".
Inductive node : Type :=
| File (f : file)
| Dir (listing : option (list (string * node))).  (* [None]: [scandir]
                                                     raises *)

(** What is at a path handed to [os.walk], if anything. *)
Definition filesystem : Type := string -> option node.

Fixpoint endswith (suffix s : string) : bool :=
  match s with
  | EmptyString => String.eqb s suffix
  | String _ r => String.eqb s suffix || endswith suffix r
  end.

(** [os.path.join a b] (posixpath) for a relative [b]. *)
Definition os_path_join (a b : string) : string :=
  if String.eqb a "" || endswith "/" a then a +:+ b
  else a +:+ "/" +:+ b.

Definition dirnames (es : list (string * node)) : list string :=
  flat_map (fun e => match snd e with Dir _ => [fst e] | File _ => [] end) es.

Definition filenames (es : list (string * node)) : list (string * file) :=
  flat_map (fun e => match snd e with File f => [(fst e, f)] | Dir _ => [] end) es.

(** [os.walk(top)] with its defaults: top-down, and with [onerror=None] a
    directory that cannot be listed (missing, not a directory, no
    permission) is skipped silently.  File names keep the file they name. *)
Fixpoint os_walk (top : string) (n : node)
  : list (string * list string * list (string * file)) :=
  match n with
  | Dir (Some es) =>
      (top, dirnames es, filenames es)
      :: (fix subdirs (l : list (string * node)) :=
            match l with
            | [] => []
            | (name, c) :: l' =>
                match c with
                | Dir _ => os_walk (os_path_join top name) c
                | File _ => []
                end ++ subdirs l'
            end) es
  | Dir None => []
  | File _ => []
  end.

Definition walk (fs : filesystem) (root_dir : string)
  : list (string * list string * list (string * file)) :=
  match fs root_dir with
  | Some n => os_walk root_dir n
  | None => []
  end.

Definition isnul (c : ascii) : bool := (code c =? 0)%N.

Fixpoint has_nul (s : string) : bool :=
  match s with
  | EmptyString => false
  | String c r => isnul c || has_nul r
  end.

(** [os.walk(root_dir)] as the loop of [load_images_and_tags] consumes it.
    [onerror=None] covers [OSError] only: for a [root_dir] with a NUL
    character [scandir] raises [ValueError] at the first step of the loop.
    The names a directory lists have no NUL, so no other path has one. *)
Definition walk_from (fs : filesystem) (root_dir : string)
  : result (list (string * list string * list (string * file))) :=
  if has_nul root_dir then Raise (ValueError "embedded null byte")
  else Ok (walk fs root_dir).

Definition os_path_getmtime (f : file) : M float :=
  match f_mtime f with
  | Some m => ret m
  | None => raise (OSError "No such file or directory")
  end.

Definition PngImageFile (full_path : string) (f : png)
  : M (option (list string)) :=
  fun w =>
    (match f with
     | PngBroken msg => Raise (OSError msg)
     | PngImage text => Ok text
     end,
     mkWorld (disk w) (opened w ++ [full_path]) (stdout w)).

Definition print (line : string) : M unit :=
  fun w => (Ok tt, mkWorld (disk w) (opened w) (stdout w ++ [line])).

(* ===================================================================== *)
(** * Main image/tag loading *)
(* ===================================================================== *)

Record image : Type := mkImage { path : string; tags : list string }.

Definition newline : string := String (ascii_of_N 10) EmptyString.

Definition parse_and_store_tags (full_path : string) (mtime : float)
    (img : png) (cache_dict : gmap string jvalue)
  : M (list string * gmap string jvalue) :=
  tags <- try_except
            (text <- PngImageFile full_path img ;;
             let metadata_text :=
               match text with
               | Some vals =>
                   fold_left (fun acc val => acc +:+ val +:+ newline) vals ""
               | None => ""
               end in
             let positive_part := parse_positive_prompt metadata_text in
             let cleaned_str := clean_prompt_text positive_part in
             ret (tokenize_prompt cleaned_str))
            (fun e =>
               print ("Error reading " +:+ full_path +:+ " metadata: "
                      +:+ exn_str e) ;;;
               ret []) ;;
  ret (tags,
       <[full_path := JObject (Some tags) (Some (JNum (PyFloat mtime)))]>
         cache_dict).

(** [v.get("mtime", 0)] *)
Definition get_mtime (v : jvalue) : result jfield :=
  match v with
  | JNotObject => Raise AttributeError
  | JObject _ (Some x) => Ok x
  | JObject _ None => Ok (JNum (PyInt 0))
  end.

(** [v["tags"]] *)
Definition get_tags (v : jvalue) : result (list string) :=
  match v with
  | JNotObject => Raise TypeError
  | JObject (Some t) _ => Ok t
  | JObject None _ => Raise (KeyError "tags")
  end.

(** [abs(cached_mtime - mtime) < 1e-9] *)
Definition mtime_unchanged (cached_mtime : jfield) (mtime : float)
  : result bool :=
  match cached_mtime with
  | JNotNum => Raise TypeError
  | JNum (PyFloat c) => Ok (SFltb (SFabs (SFsub prec emax c mtime)) eps)
  | JNum (PyInt z) =>
      match float_of_int z with
      | Ok c => Ok (SFltb (SFabs (SFsub prec emax c mtime)) eps)
      | Raise e => Raise e
      end
  end.

(** The locals of [load_images_and_tags] that the loop updates. *)
Record locals : Type := mkLocals {
  cache_dict : gmap string jvalue;
  images_data : list image;
  all_tags : gset string
}.

(** The body under [if filename.lower().endswith(".png")], for the file at
    [full_path]. *)
Definition visit_png (full_path : string) (f : file) (l : locals)
  : M locals :=
  mtime <- os_path_getmtime f ;;
  r <- match cache_dict l !! full_path with
       | Some v =>
           cached_mtime <- lift (get_mtime v) ;;
           same <- lift (mtime_unchanged cached_mtime mtime) ;;
           if same : bool then
             tags <- lift (get_tags v) ;;
             ret (tags, cache_dict l)
           else
             parse_and_store_tags full_path mtime (f_img f) (cache_dict l)
       | None =>
           parse_and_store_tags full_path mtime (f_img f) (cache_dict l)
       end ;;
  ret (mkLocals (snd r)
         (images_data l ++ [mkImage full_path (fst r)])
         (all_tags l ∪ list_to_set (fst r))).

Definition is_png (filename : string) : bool :=
  endswith ".png" (lower filename).

(** The body of the inner loop, for one [filename] of [files]. *)
Definition visit (root : string) (l : locals) (entry : string * file)
  : M locals :=
  if is_png (fst entry)
  then visit_png (os_path_join root (fst entry)) (snd entry) l
  else ret l.

(** Code-point order of [str], as [sorted] compares strings. *)
Fixpoint str_leb (a b : string) : bool :=
  match a, b with
  | EmptyString, _ => true
  | String _ _, EmptyString => false
  | String x a', String y b' =>
      if (code x <? code y)%N then true
      else if (code y <? code x)%N then false
      else str_leb a' b'
  end.

Fixpoint insert_sorted (x : string) (l : list string) : list string :=
  match l with
  | [] => [x]
  | y :: l' => if str_leb x y then x :: l else y :: insert_sorted x l'
  end.

(** [sorted(l)] on strings. *)
Definition sorted (l : list string) : list string :=
  fold_right insert_sorted [] l.

Definition load_images_and_tags (fs : filesystem) (root_dir : string)
  : M (list image * list string) :=
  loaded <- load_cache ;;
  triples <- lift (walk_from fs root_dir) ;;
  l <- foldM (fun l triple =>
                let '(root, dirs, files) := triple in
                foldM (visit root) files l)
             triples
             (mkLocals loaded [] ∅) ;;
  save_cache (cache_dict l) ;;;
  ret (images_data l, sorted (elements (all_tags l))).

(* ===================================================================== *)
(** * The tag filter of [main] *)
(* ===================================================================== *)

(** [selected_set.issubset(tags)] *)
Definition issubset (selected_set : gset string) (tags : list string) : bool :=
  forallb (fun t => bool_decide (t ∈ tags)) (elements selected_set).

Definition filter_images (images_data : list image)
    (selected_tags : list string) : list image :=
  match selected_tags with
  | _ :: _ =>
      let selected_set : gset string := list_to_set selected_tags in
      List.filter (fun img => issubset selected_set (tags img)) images_data
  | [] => images_data
  end.

Definition filter_paths (images_data : list image)
    (selected_tags : list string) : list string :=
  map path (filter_images images_data selected_tags).

(* ===================================================================== *)
(** * The sidebar and the thumbnail grid of [main] *)
(* ===================================================================== *)

(** [sorted([t for t in all_tags if t in favs])] *)
Definition favorite_tags (all_tags : list string) (favs : gset string)
  : list string :=
  sorted (List.filter (fun t => bool_decide (t ∈ favs)) all_tags).

(** [sorted([t for t in all_tags if t not in favs])] *)
Definition nonfavorite_tags (all_tags : list string) (favs : gset string)
  : list string :=
  sorted (List.filter (fun t => negb (bool_decide (t ∈ favs))) all_tags).

(** [s.remove(x)]: [KeyError] when [x] is not in [s]. *)
Definition set_remove (x : string) (s : gset string) : result (gset string) :=
  if bool_decide (x ∈ s) then Ok (s ∖ {[x]}) else Raise (KeyError x).

(** [render_tag_checkbox(tag)]: [new_val] is what the checkbox returns; the
    result is [st.session_state["favorite_tags"]] afterwards. *)
Definition render_tag_checkbox (tag : string) (new_val : bool)
    (favs : gset string) : result (gset string) :=
  let is_fav := bool_decide (tag ∈ favs) in
  if new_val && negb is_fav then Ok (favs ∪ {[tag]})
  else if negb new_val && is_fav then set_remove tag favs
  else Ok favs.

(** [for t in tags: render_tag_checkbox(t)]; [checked t] is the value of
    the checkbox of [t]. *)
Fixpoint render_tags (checked : string -> bool) (tags : list string)
    (favs : gset string) : result (gset string) :=
  match tags with
  | [] => Ok favs
  | t :: tags' =>
      match render_tag_checkbox t (checked t) favs with
      | Ok favs' => render_tags checked tags' favs'
      | Raise e => Raise e
      end
  end.

(** The two loops of the sidebar, favorites first.  Both lists are
    computed before the loops. *)
Definition render_sidebar (all_tags : list string) (checked : string -> bool)
    (favs : gset string) : result (gset string) :=
  let favorite := favorite_tags all_tags favs in
  let nonfavorite := nonfavorite_tags all_tags favs in
  match render_tags checked favorite favs with
  | Ok favs' => render_tags checked nonfavorite favs'
  | Raise e => Raise e
  end.

Definition num_cols : nat := 3.

(** [range(start, stop, step)] for a positive [step]; [fuel] bounds the
    number of elements. *)
Fixpoint py_range (fuel start stop step : nat) : list nat :=
  match fuel with
  | O => []
  | S k => if (start <? stop)%nat
           then start :: py_range k (start + step) stop step
           else []
  end.

(** [l[i:j]] for [0 <= i <= j]. *)
Definition py_slice {A} (l : list A) (i j : nat) : list A :=
  take (j - i) (drop i l).

(** The rows of the thumbnail grid. *)
Definition thumbnail_rows (filtered_images : list image) : list (list image) :=
  map (fun row_i => py_slice filtered_images row_i (row_i + num_cols))
      (py_range (length filtered_images) 0 (length filtered_images) num_cols).

(* ===================================================================== *)
(** * Vocabulary of the statements *)
(* ===================================================================== *)

(** Some character of [s] satisfies [p]. *)
Fixpoint has (p : ascii -> bool) (s : string) : bool :=
  match s with
  | EmptyString => false
  | String c r => p c || has p r
  end.

(** Somewhere in [s] a colon is immediately followed by a digit. *)
Fixpoint has_weight (s : string) : bool :=
  match s with
  | EmptyString => false
  | String c r => iscolon c && head_is isdigit r || has_weight r
  end.

(** Following the spec's words ("the first case-insensitive occurrence of
    the literal marker; if found, keep only the text preceding it"): the
    text before the first occurrence of the marker, if there is one. *)
Fixpoint spec_before_first_marker (s : string) : option string :=
  if literal_ci marker s then Some EmptyString
  else match s with
       | EmptyString => None
       | String c r =>
           match spec_before_first_marker r with
           | Some g => Some (String c g)
           | None => None
           end
       end.

(** The marker occurs in [s], in any letter case. *)
Definition marker_occurs (s : string) : Prop :=
  exists a b, s = a +:+ b /\ literal_ci marker b = true.

(** The characters of a string. *)
Fixpoint chars (s : string) : list ascii :=
  match s with
  | EmptyString => []
  | String c r => c :: chars r
  end.

(** The Index that [load_cache] reads from a state of the cache file. *)
Fixpoint index_of (c : cache_file) : gmap string jvalue :=
  match c with
  | Stored d => d
  | Missing | Corrupt _ => ∅
  | Faulty _ c' => index_of c'
  end.

(** Saving succeeds: [open(CACHE_FILE, "w")] and [json.dump] into the
    file both complete. *)
Definition can_write (c : cache_file) : bool :=
  match c with
  | Faulty _ _ => false
  | Missing | Corrupt _ | Stored _ => true
  end.

(** The [.png] files a scan of [root_dir] visits, by full path, in the
    order of the two nested loops. *)
Definition observed (fs : filesystem) (root_dir : string)
  : list (string * file) :=
  flat_map (fun triple =>
              flat_map (fun e => if is_png (fst e)
                                 then [(os_path_join (fst (fst triple)) (fst e), snd e)]
                                 else [])
                       (snd triple))
           (walk fs root_dir).

(** The entry of [full_path] sends a file of modification time [mtime] to
    [parse_and_store_tags]: there is no entry, or its recorded time is not
    within the tolerance. *)
Definition needs_parse (d : gmap string jvalue) (full_path : string)
    (mtime : float) : bool :=
  match d !! full_path with
  | None => true
  | Some v =>
      match get_mtime v with
      | Ok c => match mtime_unchanged c mtime with
                | Ok same => negb same
                | Raise _ => false
                end
      | Raise _ => false
      end
  end.

(** The entry of [full_path] is reused for a file of modification time
    [mtime], and gives [tags]. *)
Definition reuses (d : gmap string jvalue) (full_path : string)
    (mtime : float) (tags : list string) : Prop :=
  exists v c, d !! full_path = Some v /\ get_mtime v = Ok c
              /\ mtime_unchanged c mtime = Ok true /\ get_tags v = Ok tags.

(** An entry of the shape the docstring of [load_cache] gives. *)
Definition wf_value (v : jvalue) : Prop :=
  exists tags c, v = JObject (Some tags) (Some (JNum (PyFloat c))).

Definition wf_index (d : gmap string jvalue) : Prop :=
  forall p v, d !! p = Some v -> wf_value v.

(** Every file of the list can be stat-ed and its time is a finite float. *)
Definition finite_mtimes (files : list (string * file)) : Prop :=
  forall p f, In (p, f) files ->
    exists m, f_mtime f = Some m /\ isfinite m = true.

(** The loop of [load_images_and_tags] over the files it visits. *)
Definition visit_observed (l : locals) (e : string * file) : M locals :=
  visit_png (fst e) (snd e) l.

Definition scan_loop (files : list (string * file)) (l : locals) : M locals :=
  foldM visit_observed files l.

(** [load_images_and_tags] when the root has no NUL character and the cache
    file can be written: the loop over the observed files, then the save. *)
Definition run_writable (fs : filesystem) (root_dir : string) (w : world)
  : result (list image * list string) * world :=
  match scan_loop (observed fs root_dir)
          (mkLocals (index_of (disk w)) [] ∅) w with
  | (Ok l, w') =>
      (Ok (images_data l, sorted (elements (all_tags l))),
       mkWorld (Stored (cache_dict l)) (opened w') (stdout w'))
  | (Raise e, w') => (Raise e, w')
  end.

(** The tags [parse_and_store_tags] computes for an image. *)
Definition parsed_tags (img : png) : list string :=
  match img with
  | PngBroken _ => []
  | PngImage text =>
      extract_tags
        match text with
        | Some vals =>
            fold_left (fun acc val => acc +:+ val +:+ newline) vals ""
        | None => ""
        end
  end.

(** The world after [parse_and_store_tags] ran on the image at
    [full_path]. *)
Definition after_parse (full_path : string) (img : png) (w : world) : world :=
  match img with
  | PngBroken msg =>
      mkWorld (disk w) (opened w ++ [full_path])
        (stdout w ++ ["Error reading " +:+ full_path +:+ " metadata: " +:+ msg])
  | PngImage _ => mkWorld (disk w) (opened w ++ [full_path]) (stdout w)
  end.

(** The tags collected are the tags of the images listed. *)
Definition tags_collected (l : locals) : Prop :=
  forall t, t ∈ all_tags l
            <-> exists img, In img (images_data l) /\ In t (tags img).

(** The directories [os_walk] descends into, below [top]. *)
Definition walk_subdirs (top : string) (es : list (string * node))
  : list (string * list string * list (string * file)) :=
  flat_map (fun e => match snd e with
                     | Dir _ => os_walk (os_path_join top (fst e)) (snd e)
                     | File _ => []
                     end) es.

(** The [.png] files among the [files] of the triples of a walk. *)
Definition observed_in
    (triples : list (string * list string * list (string * file)))
  : list (string * file) :=
  flat_map (fun triple =>
              flat_map (fun e => if is_png (fst e)
                                 then [(os_path_join (fst (fst triple)) (fst e), snd e)]
                                 else [])
                       (snd triple)) triples.




(** The entry [parse_and_store_tags] writes. *)
Definition entry (tags : list string) (mtime : float) : jvalue :=
  JObject (Some tags) (Some (JNum (PyFloat mtime))).

(* ===================================================================== *)
(** * Sample inputs *)
(* ===================================================================== *)

(** 1700000000.0, 1700000001.0 and 1700000500.0 as binary64. *)
Definition t1 : float := S754_finite false 7130316800000000 (-22).
Definition t2 : float := S754_finite false 7130316804194304 (-22).

(** A file system with nothing at any path. *)
Definition no_fs : filesystem := fun _ => None.

Definition demo_files (a_mtime : float) : list (string * node) :=
  [("a.png", File (mkFile (Some a_mtime)
                     (PngImage (Some ["cat, (dog:1.2)"; "Negative prompt: blurry"]))));
   ("b.PNG", File (mkFile (Some t2) (PngBroken "cannot identify image file")));
   ("notes.txt", File (mkFile None (PngBroken "not an image")));
   ("sub", Dir (Some [("c.png", File (mkFile (Some t1) (PngImage None)))]));
   ("locked", Dir None)].

(** [/pics] holds a readable image, an unreadable one, a text file, a
    sub-directory and a directory that cannot be listed. *)
Definition demo_fs : filesystem := fun p =>
  if String.eqb p "/pics" then Some (Dir (Some (demo_files t1))) else None.



(** No cache file yet, nothing opened, nothing printed. *)
Definition demo_world : world := mkWorld Missing [] [].

Definition demo_scan : result (list image * list string) * world :=
  load_images_and_tags demo_fs "/pics" demo_world.
Definition demo_world1 : world := snd demo_scan.
Definition demo_result : list image * list string :=
  match fst demo_scan with
  | Ok r => r
  | Raise _ => ([], [])
  end.

(** [/links] holds a readable image and a [.png] name that cannot be
    stat-ed (a dangling link). *)
Definition dangling_file : file := mkFile None (PngBroken "no such file").
Definition dangling_fs : filesystem := fun p =>
  if String.eqb p "/links"
  then Some (Dir (Some [("ok.png", File (mkFile (Some t1) (PngImage None)));
                        ("gone.png", File dangling_file)]))
  else None.

Definition bad_mtime_world : world :=
  mkWorld (Stored {[ "/pics/a.png" := JObject (Some ["old"]) (Some JNotNum) ]})
    [] [].

(** [/old] holds an image dated at the epoch; the cache has an entry for
    it with neither ["tags"] nor ["mtime"]. *)
Definition epoch_file : file := mkFile (Some (S754_zero false)) (PngImage None).
Definition epoch_fs : filesystem := fun p =>
  if String.eqb p "/old" then Some (Dir (Some [("a.png", File epoch_file)]))
  else None.
Definition epoch_index : gmap string jvalue :=
  {[ "/old/a.png" := JObject None None ]}.
Definition epoch_world : world := mkWorld (Stored epoch_index) [] [].

(* ===================================================================== *)
(** * Characters *)
(* ===================================================================== *)

Ltac by_cases_on_char c :=
  destruct c as [[] [] [] [] [] [] [] []]; vm_compute; try reflexivity;
  try congruence.

Lemma isspace_lower c : isspace (lower_char c) = isspace c.
Proof. by_cases_on_char c. Qed.

Lemma lower_char_idem c : lower_char (lower_char c) = lower_char c.
Proof. by_cases_on_char c. Qed.

Lemma iscomma_lower c : iscomma (lower_char c) = iscomma c.
Proof. by_cases_on_char c. Qed.

(* ===================================================================== *)
(** * [lower] and [strip] *)
(* ===================================================================== *)

Lemma lower_idem s : lower (lower s) = lower s.
Proof. induction s as [|c r IH]; simpl; [|rewrite lower_char_idem, IH]; reflexivity. Qed.

Lemma nonempty_lower s : nonempty (lower s) = nonempty s.
Proof. destruct s; reflexivity. Qed.

Lemma lstrip_lower s : lstrip (lower s) = lower (lstrip s).
Proof.
  induction s as [|c r IH]; simpl; [reflexivity|].
  rewrite isspace_lower. destruct (isspace c); [exact IH | reflexivity].
Qed.

Lemma rstrip_lower s : rstrip (lower s) = lower (rstrip s).
Proof.
  induction s as [|c r IH]; simpl; [reflexivity|].
  rewrite IH, isspace_lower.
  destruct (rstrip r); simpl; [destruct (isspace c)|]; reflexivity.
Qed.

Lemma strip_lower s : strip (lower s) = lower (strip s).
Proof. unfold strip. rewrite lstrip_lower, rstrip_lower. reflexivity. Qed.

Lemma lstrip_head s : head_is isspace (lstrip s) = false.
Proof.
  induction s as [|c r IH]; simpl; [reflexivity|].
  destruct (isspace c) eqn:E; [exact IH | simpl; exact E].
Qed.

Lemma lstrip_id s : head_is isspace s = false -> lstrip s = s.
Proof. destruct s as [|c r]; simpl; [reflexivity|]. intros ->. reflexivity. Qed.

Lemma rstrip_head s : head_is isspace s = false -> head_is isspace (rstrip s) = false.
Proof.
  destruct s as [|c r]; simpl; [reflexivity|]. intros E.
  destruct (rstrip r); simpl; rewrite ?E; simpl; rewrite ?E; reflexivity.
Qed.

Lemma rstrip_idem s : rstrip (rstrip s) = rstrip s.
Proof.
  induction s as [|c r IH]; simpl; [reflexivity|].
  destruct (rstrip r) as [|c' r'] eqn:E.
  - destruct (isspace c) eqn:Ec; simpl; rewrite ?Ec; reflexivity.
  - change (rstrip (String c (String c' r'))) with
      (match rstrip (String c' r') with
       | EmptyString => if isspace c then EmptyString else String c EmptyString
       | r'' => String c r''
       end).
    rewrite IH. reflexivity.
Qed.

Lemma strip_idem s : strip (strip s) = strip s.
Proof.
  unfold strip.
  rewrite (lstrip_id (rstrip (lstrip s))).
  - apply rstrip_idem.
  - apply rstrip_head, lstrip_head.
Qed.

Lemma has_lstrip p s : has p s = false -> has p (lstrip s) = false.
Proof.
  induction s as [|c r IH]; simpl; [reflexivity|]. intros H.
  apply orb_false_iff in H as [Hc Hr].
  destruct (isspace c); [auto|]. simpl. rewrite Hc, Hr. reflexivity.
Qed.

Lemma has_rstrip p s : has p s = false -> has p (rstrip s) = false.
Proof.
  induction s as [|c r IH]; simpl; [reflexivity|]. intros H.
  apply orb_false_iff in H as [Hc Hr]. specialize (IH Hr).
  destruct (rstrip r); simpl in *.
  - destruct (isspace c); simpl; rewrite ?Hc; reflexivity.
  - rewrite Hc. exact IH.
Qed.

Lemma has_strip p s : has p s = false -> has p (strip s) = false.
Proof. intros H. apply has_rstrip, has_lstrip, H. Qed.

Lemma has_comma_lower s : has iscomma (lower s) = has iscomma s.
Proof. induction s as [|c r IH]; simpl; [|rewrite iscomma_lower, IH]; reflexivity. Qed.

Lemma split_comma_pieces s :
  Forall (fun x => has iscomma x = false) (split_comma s).
Proof.
  induction s as [|c r IH]; simpl.
  - repeat constructor.
  - destruct (iscomma c) eqn:E.
    + constructor; [reflexivity | exact IH].
    + destruct (split_comma r) as [|x xs].
      * repeat constructor. simpl. rewrite E. reflexivity.
      * inversion IH; subst. constructor; [|assumption].
        simpl. rewrite E. assumption.
Qed.

Lemma tokenize_prompt_elem prompt t :
  In t (tokenize_prompt prompt) ->
  exists x, In x (split_comma prompt) /\ nonempty (strip x) = true
            /\ t = lower (strip x).
Proof.
  unfold tokenize_prompt, list_set. intros H.
  rewrite <- list_elem_of_In, elem_of_remove_dups, list_elem_of_In in H.
  apply in_map_iff in H as (x & <- & Hx).
  apply filter_In in Hx as [Hx Hne]. eauto.
Qed.

Lemma tokenize_prompt_normalised prompt t :
  In t (tokenize_prompt prompt) ->
  nonempty t = true /\ lower t = t /\ strip t = t /\ has iscomma t = false.
Proof.
  intros H. apply tokenize_prompt_elem in H as (x & Hx & Hne & ->).
  repeat split.
  - rewrite nonempty_lower. exact Hne.
  - apply lower_idem.
  - rewrite strip_lower, strip_idem. reflexivity.
  - rewrite has_comma_lower. apply has_strip.
    pose proof (split_comma_pieces prompt) as HF.
    rewrite Forall_forall in HF. apply HF.
    apply list_elem_of_In. exact Hx.
Qed.

(* ===================================================================== *)
(** * [parse_positive_prompt] *)
(* ===================================================================== *)

Lemma match_star_marker_tail c r :
  match_star_marker (String c r) = None -> match_star_marker r = None.
Proof. simpl. destruct (match_star_marker r); [discriminate | reflexivity]. Qed.

(** The search succeeds at offset 0 or nowhere: the star absorbs any
    prefix. *)
Lemma re_search_head s : re_search s = match_star_marker s.
Proof.
  induction s as [|c r IH].
  - simpl. destruct (literal_ci marker ""); reflexivity.
  - change (re_search (String c r)) with
      (match match_star_marker (String c r) with
       | Some g => Some g
       | None => re_search r
       end).
    destruct (match_star_marker (String c r)) eqn:E; [reflexivity|].
    rewrite IH. apply match_star_marker_tail in E. exact E.
Qed.

(** The code and the spec's reading agree on whether the marker occurs. *)
Lemma marker_absent_iff s :
  match_star_marker s = None <-> spec_before_first_marker s = None.
Proof.
  induction s as [|c r IH].
  - simpl. destruct (literal_ci marker ""); split; congruence.
  - change (spec_before_first_marker (String c r)) with
      (if literal_ci marker (String c r) then Some EmptyString
       else match spec_before_first_marker r with
            | Some g => Some (String c g)
            | None => None
            end).
    change (match_star_marker (String c r)) with
      (match match_star_marker r with
       | Some g => Some (String c g)
       | None => if literal_ci marker (String c r) then Some EmptyString
                 else None
       end).
    destruct (match_star_marker r), (spec_before_first_marker r),
      (literal_ci marker (String c r)); split; intros H;
      try discriminate; try reflexivity.
    + destruct IH as [_ IH]. discriminate IH. reflexivity.
    + destruct IH as [IH _]. discriminate IH. reflexivity.
Qed.

(** Without the marker the whole text is kept, trimmed. *)
Lemma parse_positive_prompt_no_marker s :
  spec_before_first_marker s = None -> parse_positive_prompt s = strip s.
Proof.
  intros H. apply marker_absent_iff in H.
  unfold parse_positive_prompt. rewrite re_search_head, H. reflexivity.
Qed.

(** With the marker, the text kept ends where an occurrence of the marker
    starts, and no occurrence starts later: it is the last one. *)
Lemma match_star_marker_last s g :
  match_star_marker s = Some g ->
  exists rest, s = g +:+ rest /\ literal_ci marker rest = true
               /\ match_star_marker (drop_chars 1 rest) = None.
Proof.
  revert g. induction s as [|c r IH]; intros g.
  - intros H. vm_compute in H. discriminate H.
  - change (match_star_marker (String c r)) with
      (match match_star_marker r with
       | Some g => Some (String c g)
       | None => if literal_ci marker (String c r) then Some EmptyString
                 else None
       end).
    destruct (match_star_marker r) as [g'|] eqn:E.
    + intros [= <-]. destruct (IH g' eq_refl) as (rest & -> & Hm & Hl).
      exists rest. auto.
    + destruct (literal_ci marker (String c r)) eqn:Em; [|discriminate].
      intros [= <-]. exists (String c r). auto.
Qed.

(* ===================================================================== *)
(** * [clean_prompt_text] *)
(* ===================================================================== *)

Lemma has_remove_parens s : has isparen (remove_parens s) = false.
Proof.
  induction s as [|c r IH]; simpl; [reflexivity|].
  destruct (isparen c) eqn:E; simpl; rewrite ?E; exact IH.
Qed.

Lemma sub_weight_zero c r :
  sub_weight 0 (String c r) =
  match match_weight (String c r) with
  | Some n => sub_weight (pred n) r
  | None => String c (sub_weight 0 r)
  end.
Proof. reflexivity. Qed.

(** The substitution only deletes. *)
Lemma has_sub_weight p s : forall k,
  has p s = false -> has p (sub_weight k s) = false.
Proof.
  induction s as [|c r IH]; intros k H; [reflexivity|].
  simpl in H. apply orb_false_iff in H as [Hc Hr].
  destruct k as [|k]; [|simpl; auto].
  rewrite sub_weight_zero.
  destruct (match_weight (String c r)); [auto|].
  change (p c || has p (sub_weight 0 r) = false).
  rewrite Hc. simpl. auto.
Qed.

Lemma count_digits_stop s :
  head_is isdigit (drop_chars (count_digits s) s) = false.
Proof.
  induction s as [|c r IH]; simpl; [reflexivity|].
  destruct (isdigit c) eqn:E; simpl; [exact IH | exact E].
Qed.

Lemma drop_chars_add n k s :
  drop_chars (n + k) s = drop_chars k (drop_chars n s).
Proof.
  revert s. induction n as [|n IH]; intros s; simpl; [reflexivity|].
  destruct s as [|c r]; [destruct k; reflexivity | apply IH].
Qed.

(** A match is at least two characters long and is greedy: no digit
    follows it. *)
Lemma match_weight_stop s n :
  match_weight s = Some n ->
  exists n', n = S n' /\ head_is isdigit (drop_chars n s) = false.
Proof.
  destruct s as [|c r]; [discriminate|].
  unfold match_weight.
  destruct (iscolon c); [|discriminate].
  destruct (count_digits r) as [|d] eqn:Ed; [discriminate|].
  pose proof (count_digits_stop r) as Hs. rewrite Ed in Hs.
  assert (Hdrop : forall j x y, drop_chars (S j) (String x y) = drop_chars j y)
    by reflexivity.
  assert (Hshort : exists n', 2 + d = S n'
            /\ head_is isdigit (drop_chars (2 + d) (String c r)) = false).
  { exists (S d). split; [reflexivity|].
    change (2 + d) with (S (S d)). rewrite Hdrop. exact Hs. }
  destruct (drop_chars (S d) r) as [|x r2] eqn:Er.
  - intros [= <-]. exact Hshort.
  - destruct (isdot x) eqn:Ex.
    + destruct (count_digits r2) as [|k] eqn:Ek.
      * intros [= <-]. exact Hshort.
      * intros [= <-]. exists (3 + d + k). split; [reflexivity|].
        rewrite Hdrop.
        replace (S (S (S (d + k)))) with (S d + S (S k)) by lia.
        rewrite drop_chars_add, Er, Hdrop.
        pose proof (count_digits_stop r2) as Hk. rewrite Ek in Hk.
        exact Hk.
    + intros [= <-]. exact Hshort.
Qed.

Lemma match_weight_none c r :
  match_weight (String c r) = None -> iscolon c = true ->
  head_is isdigit r = false.
Proof.
  unfold match_weight. intros H Hc. rewrite Hc in H.
  destruct (count_digits r) as [|d] eqn:Ed.
  - destruct r as [|x r']; [reflexivity|]. simpl in Ed |- *.
    destruct (isdigit x); [discriminate | reflexivity].
  - destruct (drop_chars (S d) r) as [|y r2]; [discriminate|].
    destruct (isdot y); [|discriminate].
    destruct (count_digits r2); discriminate.
Qed.

(** What follows the dropped characters decides the head of the output. *)
Lemma sub_weight_head s : forall k,
  head_is isdigit (drop_chars k s) = false ->
  head_is isdigit (sub_weight k s) = false.
Proof.
  induction s as [|c r IH]; intros k H.
  - reflexivity.
  - destruct k as [|k].
    + simpl in H. rewrite sub_weight_zero.
      destruct (match_weight (String c r)) as [n|] eqn:E.
      * apply match_weight_stop in E as (n' & -> & Hn). apply IH. exact Hn.
      * simpl. exact H.
    + simpl. apply IH. exact H.
Qed.

Lemma has_weight_sub_weight s : forall k, has_weight (sub_weight k s) = false.
Proof.
  induction s as [|c r IH]; intros k.
  - reflexivity.
  - destruct k as [|k]; [|apply IH].
    rewrite sub_weight_zero.
    destruct (match_weight (String c r)) as [n|] eqn:E; [apply IH|].
    simpl. rewrite IH, orb_false_r.
    destruct (iscolon c) eqn:Ec; [|reflexivity]. simpl.
    apply sub_weight_head. simpl. apply match_weight_none with c; assumption.
Qed.

(* ===================================================================== *)
(** * Claims on the text normaliser *)
(* ===================================================================== *)

(** C1 (the code departs from it).  On a text with two markers
    [parse_positive_prompt] keeps the text before the LAST marker, where the
    claim keeps the text before the first: the text between the two
    markers is tokenized as a tag. *)
Theorem parse_positive_prompt_two_markers :
  let T := "cat, Negative prompt: dog, Negative prompt: bird" in
  spec_before_first_marker T = Some "cat, "
  /\ parse_positive_prompt T = "cat, Negative prompt: dog,"
  /\ extract_tags T = ["cat"; "negative prompt: dog"].
Proof. vm_compute. repeat split; reflexivity. Qed.

(** C7.  [clean_prompt_text] removes the parentheses first and the weight
    suffixes from the result: no parenthesis is left, and no colon
    immediately followed by a digit is left, also where the digits were
    behind a parenthesis; [extract_tags "(character:1.6), (blue sky)"] is
    the set of ["character"] and ["blue sky"]. *)
Theorem clean_prompt_text_parens_then_weights (prompt : string) :
  clean_prompt_text prompt = sub_weight 0 (remove_parens prompt)
  /\ has isparen (remove_parens prompt) = false
  /\ has isparen (clean_prompt_text prompt) = false
  /\ has_weight (clean_prompt_text prompt) = false
  /\ clean_prompt_text "tag:(1.6)" = "tag"
  /\ NoDup (extract_tags "(character:1.6), (blue sky)")
  /\ extract_tags "(character:1.6), (blue sky)" ≡ₚ ["character"; "blue sky"].
Proof.
  split; [reflexivity|]. split; [apply has_remove_parens|].
  split; [apply has_sub_weight, has_remove_parens|].
  split; [apply has_weight_sub_weight|].
  split; [vm_compute; reflexivity|].
  split; [apply NoDup_remove_dups|].
  vm_compute. reflexivity.
Qed.

(** C8.  Every tag [extract_tags] returns is non-empty, is its own
    lower-cased form and its own trimmed form, and has no comma; no tag is
    listed twice; [extract_tags "a, A, a "] is the one tag ["a"]. *)
Theorem extract_tags_normalised (raw_text : string) :
  NoDup (extract_tags raw_text)
  /\ Forall (fun t => t <> "" /\ lower t = t /\ strip t = t
                      /\ has iscomma t = false)
            (extract_tags raw_text)
  /\ extract_tags "a, A, a " = ["a"].
Proof.
  split; [apply NoDup_remove_dups|]. split; [|vm_compute; reflexivity].
  apply Forall_forall. intros t Ht. apply list_elem_of_In in Ht.
  apply tokenize_prompt_normalised in Ht as (Hne & Hl & Hs & Hc).
  repeat split; try assumption.
  intros ->. discriminate Hne.
Qed.

(* ===================================================================== *)
(** * The tag filter *)
(* ===================================================================== *)

Lemma issubset_spec (selected : list string) (ts : list string) :
  issubset (list_to_set selected) ts = true <-> selected ⊆ ts.
Proof.
  unfold issubset. rewrite forallb_forall. split.
  - intros H t Ht. specialize (H t).
    rewrite <- list_elem_of_In, elem_of_elements, elem_of_list_to_set in H.
    apply bool_decide_eq_true in H; auto.
  - intros H t Ht.
    rewrite <- list_elem_of_In, elem_of_elements, elem_of_list_to_set in Ht.
    apply bool_decide_eq_true. auto.
Qed.

Lemma filter_all {A} (P : A -> Prop) `{forall x, Decision (P x)} (l : list A) :
  (forall x, P x) -> filter P l = l.
Proof.
  intros HP. induction l as [|x l IH]; [reflexivity|].
  rewrite filter_cons. destruct (decide (P x)) as [_|n]; [|destruct (n (HP x))].
  rewrite IH. reflexivity.
Qed.

Lemma filter_reflect {A} (f : A -> bool) (P : A -> Prop)
    `{forall x, Decision (P x)} (l : list A) :
  (forall x, f x = true <-> P x) -> List.filter f l = filter P l.
Proof.
  intros Hf. induction l as [|x l IH]; [reflexivity|].
  rewrite filter_cons. cbn [List.filter]. rewrite IH.
  destruct (f x) eqn:E, (decide (P x)) as [Hp|Hn]; try reflexivity.
  - apply Hf in E. contradiction.
  - apply Hf in Hp. congruence.
Qed.

(** C6.  The filter returns, in the order of [images], the path of every
    image whose tags include every tag of the query, and no other; with
    the empty query it returns every path.  Tags are compared by equality
    of strings. *)
Theorem filter_paths_superset (images : list image) (query : list string) :
  filter_paths images query
    = path <$> filter (fun img => query ⊆ tags img) images
  /\ filter_paths images [] = path <$> images.
Proof.
  split; [|reflexivity].
  unfold filter_paths, filter_images. destruct query as [|q query].
  - rewrite filter_all; [reflexivity|]. intros img t Ht. inversion Ht.
  - f_equal. apply filter_reflect. intros img. apply issubset_spec.
Qed.

(* ===================================================================== *)
(** * The cache store *)
(* ===================================================================== *)

Lemma read_json_index c :
  match read_json c with Ok d => d | Raise _ => ∅ end = index_of c.
Proof. induction c as [|e|d|wf c IH]; cbn; auto. Qed.

Lemma read_json_missing c :
  file_exists c = false -> exists e, read_json c = Raise e.
Proof. induction c as [|e|d|wf c IH]; cbn; eauto; discriminate. Qed.

Lemma load_cache_run (w : world) :
  load_cache w = (Ok (index_of (disk w)), w).
Proof.
  destruct w as [c o s].
  unfold load_cache, bind, os_path_exists_cache, try_except, json_load_cache,
    ret. cbn [disk]. rewrite <- read_json_index.
  destruct (file_exists c) eqn:E; cbn [negb disk].
  - destruct (read_json c); reflexivity.
  - destruct (read_json_missing c E) as [e ->]. reflexivity.
Qed.

(** C3.  [load_cache] never raises and leaves everything as it is: it
    returns the empty Index when the cache file is missing, the empty
    Index when reading or parsing it fails, and the stored Index
    otherwise. *)
Theorem load_cache_never_raises (w : world) :
  load_cache w = (Ok (index_of (disk w)), w)
  /\ (forall o s, load_cache (mkWorld Missing o s)
                  = (Ok ∅, mkWorld Missing o s))
  /\ (forall e o s, load_cache (mkWorld (Corrupt e) o s)
                    = (Ok ∅, mkWorld (Corrupt e) o s)).
Proof.
  split; [apply load_cache_run | split; reflexivity].
Qed.

(* ===================================================================== *)
(** * One file of the scan *)
(* ===================================================================== *)

Lemma float_sub_self (m : float) :
  isfinite m = true -> SFsub prec emax m m = S754_zero false.
Proof.
  destruct m as [s| s | |s mx ex]; try discriminate; intros _.
  - destruct s; reflexivity.
  - unfold SFsub. rewrite Z.sub_diag. reflexivity.
Qed.

(** A finite time is within the tolerance of itself. *)
Lemma mtime_unchanged_refl (m : float) :
  isfinite m = true -> mtime_unchanged (JNum (PyFloat m)) m = Ok true.
Proof.
  intros H. unfold mtime_unchanged. rewrite float_sub_self by exact H.
  reflexivity.
Qed.

Lemma parse_and_store_tags_run p m img d w :
  parse_and_store_tags p m img d w
  = (Ok (parsed_tags img, <[p := entry (parsed_tags img) m]> d),
     after_parse p img w).
Proof. destruct img; reflexivity. Qed.


Lemma reuses_entry d p m ts :
  isfinite m = true -> reuses (<[p := entry ts m]> d) p m ts.
Proof.
  intros H. exists (entry ts m), (JNum (PyFloat m)).
  rewrite lookup_insert_eq.
  split; [reflexivity|]. split; [reflexivity|].
  split; [apply mtime_unchanged_refl, H | reflexivity].
Qed.

Lemma reuses_lookup d d' p m ts :
  d' !! p = d !! p -> reuses d p m ts -> reuses d' p m ts.
Proof. intros E (v & c & Hv & H). exists v, c. rewrite E. auto. Qed.


(** A hit: the stored tags are reused, nothing is opened, printed or
    written. *)
Lemma visit_png_reuse p f l w m ts :
  f_mtime f = Some m -> reuses (cache_dict l) p m ts ->
  visit_png p f l w
  = (Ok (mkLocals (cache_dict l) (images_data l ++ [mkImage p ts])
           (all_tags l ∪ list_to_set ts)), w).
Proof.
  intros Hm (v & c & Hv & Hc & Hu & Ht).
  unfold visit_png, os_path_getmtime, bind, lift, ret.
  rewrite Hm, Hv, Hc, Hu, Ht. reflexivity.
Qed.

(** A miss: the image is parsed and its entry written. *)
Lemma visit_png_parse p f l w m :
  f_mtime f = Some m -> needs_parse (cache_dict l) p m = true ->
  visit_png p f l w
  = (Ok (mkLocals (<[p := entry (parsed_tags (f_img f)) m]> (cache_dict l))
           (images_data l ++ [mkImage p (parsed_tags (f_img f))])
           (all_tags l ∪ list_to_set (parsed_tags (f_img f)))),
     after_parse p (f_img f) w).
Proof.
  intros Hm Hn. unfold needs_parse in Hn.
  unfold visit_png, os_path_getmtime, bind, lift, ret.
  rewrite Hm.
  destruct (cache_dict l !! p) as [v|].
  - destruct (get_mtime v) as [c|]; [|discriminate].
    destruct (mtime_unchanged c m) as [[]|]; try discriminate.
    rewrite parse_and_store_tags_run. reflexivity.
  - rewrite parse_and_store_tags_run. reflexivity.
Qed.

(** Whatever a visit returns, it was a hit, a miss or an error that left
    the world alone. *)
Lemma visit_png_cases p f l w :
  (exists m ts, f_mtime f = Some m /\ reuses (cache_dict l) p m ts)
  \/ (exists m, f_mtime f = Some m /\ needs_parse (cache_dict l) p m = true)
  \/ (exists e, visit_png p f l w = (Raise e, w)
                /\ forall m, f_mtime f = Some m ->
                     needs_parse (cache_dict l) p m = false).
Proof.
  unfold visit_png, os_path_getmtime, bind, lift, ret, raise, needs_parse, reuses.
  destruct (f_mtime f) as [m|]; [|right; right; eexists; split; [reflexivity|discriminate]].
  destruct (cache_dict l !! p) as [v|]; [|right; left; eauto].
  destruct (get_mtime v) as [c|e] eqn:Hc.
  - destruct (mtime_unchanged c m) as [[]|e] eqn:Hu.
    + destruct (get_tags v) as [ts|e] eqn:Ht.
      * left. exists m, ts. split; [reflexivity|]. exists v, c. auto.
      * right; right. eexists. split; [reflexivity|]. intros ? [= <-].
        rewrite Hu. reflexivity.
    + right; left. exists m. rewrite Hu. auto.
    + right; right. eexists. split; [reflexivity|]. intros ? [= <-].
      rewrite Hu. reflexivity.
  - right; right. eexists. split; [reflexivity|]. intros ? [= <-]. reflexivity.
Qed.

(* ===================================================================== *)
(** * The loop over the observed files *)
(* ===================================================================== *)

Lemma foldM_app {A B} (f : A -> B -> M A) (l1 l2 : list B) (a : A) (w : world) :
  foldM f (l1 ++ l2) a w
  = match foldM f l1 a w with
    | (Ok a', w') => foldM f l2 a' w'
    | (Raise e, w') => (Raise e, w')
    end.
Proof.
  revert a w. induction l1 as [|b l1 IH]; intros a w; [reflexivity|].
  simpl. unfold bind. destruct (f a b w) as [[a'|e] w']; [apply IH | reflexivity].
Qed.

Lemma scan_loop_cons p f files l w :
  scan_loop ((p, f) :: files) l w
  = match visit_png p f l w with
    | (Ok l', w') => scan_loop files l' w'
    | (Raise e, w') => (Raise e, w')
    end.
Proof. reflexivity. Qed.

Lemma scan_loop_app files1 files2 l w :
  scan_loop (files1 ++ files2) l w
  = match scan_loop files1 l w with
    | (Ok l', w') => scan_loop files2 l' w'
    | (Raise e, w') => (Raise e, w')
    end.
Proof. apply foldM_app. Qed.

(** The inner loop over the [files] of one directory visits its [.png]
    files. *)
Lemma inner_loop_observed root files l w :
  foldM (visit root) files l w
  = scan_loop
      (flat_map (fun e => if is_png (fst e)
                          then [(os_path_join root (fst e), snd e)] else [])
                files) l w.
Proof.
  revert l w. induction files as [|[name f] files IH]; intros l w; [reflexivity|].
  cbn [flat_map fst snd]. unfold scan_loop. rewrite foldM_app.
  cbn [foldM]. unfold bind at 1. unfold visit at 1. cbn [fst snd].
  destruct (is_png name).
  - cbn [foldM]. unfold bind, visit_observed at 1. cbn [fst snd].
    destruct (visit_png (os_path_join root name) f l w) as [[l'|e] w'];
      [|reflexivity].
    unfold ret. apply IH.
  - cbn [foldM]. unfold ret. apply IH.
Qed.

Lemma outer_loop_observed
    (triples : list (string * list string * list (string * file))) l w :
  foldM (fun l triple => let '(root, dirs, files) := triple in
                         foldM (visit root) files l) triples l w
  = scan_loop
      (flat_map (fun triple =>
                   flat_map (fun e => if is_png (fst e)
                                      then [(os_path_join (fst (fst triple)) (fst e), snd e)]
                                      else [])
                            (snd triple)) triples) l w.
Proof.
  revert l w. induction triples as [|[[root dirs] files] triples IH];
    intros l w; [reflexivity|].
  cbn [flat_map fst snd]. rewrite scan_loop_app, <- inner_loop_observed.
  cbn [foldM]. unfold bind.
  destruct (foldM (visit root) files l w) as [[l'|e] w']; [apply IH | reflexivity].
Qed.

(** [load_images_and_tags] is the loop over the observed files, between
    the load and the save of the cache. *)
Lemma load_images_and_tags_unfold fs root_dir w :
  load_images_and_tags fs root_dir w
  = if has_nul root_dir then (Raise (ValueError "embedded null byte"), w)
    else match scan_loop (observed fs root_dir)
                 (mkLocals (index_of (disk w)) [] ∅) w with
         | (Ok l, w') =>
             match save_cache (cache_dict l) w' with
             | (Ok _, w'') =>
                 (Ok (images_data l, sorted (elements (all_tags l))), w'')
             | (Raise e, w'') => (Raise e, w'')
             end
         | (Raise e, w') => (Raise e, w')
         end.
Proof.
  unfold load_images_and_tags, observed. unfold bind at 1.
  rewrite load_cache_run. unfold bind at 1. unfold lift, walk_from.
  destruct (has_nul root_dir); [reflexivity|].
  unfold bind at 1. rewrite outer_loop_observed.
  destruct (scan_loop _ _ w) as [[l|e] w']; [|reflexivity].
  unfold bind at 1. destruct (save_cache (cache_dict l) w') as [[u|e] w''];
    reflexivity.
Qed.

Lemma save_cache_writable d w :
  can_write (disk w) = true ->
  save_cache d w = (Ok tt, mkWorld (Stored d) (opened w) (stdout w)).
Proof. unfold save_cache. destruct (disk w); [reflexivity..|discriminate]. Qed.

Lemma save_cache_returns d w u w' :
  save_cache d w = (Ok u, w') -> can_write (disk w) = true.
Proof.
  unfold save_cache. destruct (disk w) as [| | |[e|e] c]; try reflexivity;
    discriminate.
Qed.


Lemma disk_after_parse p img w : disk (after_parse p img w) = disk w.
Proof. destruct img; reflexivity. Qed.

(** The loop never touches the cache file. *)
Lemma scan_loop_disk files : forall l w r w',
  scan_loop files l w = (r, w') -> disk w' = disk w.
Proof.
  induction files as [|[p f] files IH]; intros l w r w' H.
  - injection H as _ <-. reflexivity.
  - rewrite scan_loop_cons in H.
    destruct (visit_png_cases p f l w)
      as [(m & ts & Hm & Hr) | [(m & Hm & Hn) | (e & He & _)]].
    + rewrite (visit_png_reuse _ _ _ _ _ _ Hm Hr) in H. eauto.
    + rewrite (visit_png_parse _ _ _ _ _ Hm Hn) in H.
      rewrite (IH _ _ _ _ H). apply disk_after_parse.
    + rewrite He in H. injection H as _ <-. reflexivity.
Qed.

Lemma load_images_and_tags_run fs root_dir w :
  has_nul root_dir = false -> can_write (disk w) = true ->
  load_images_and_tags fs root_dir w = run_writable fs root_dir w.
Proof.
  intros Hnul Hw. rewrite load_images_and_tags_unfold, Hnul. unfold run_writable.
  destruct (scan_loop _ _ w) as [[l|e] w'] eqn:E; [|reflexivity].
  apply scan_loop_disk in E. rewrite save_cache_writable by congruence.
  reflexivity.
Qed.

(** A scan that returns had a root without NUL and a cache file it could
    write. *)
Lemma load_images_and_tags_returns fs root_dir w r w1 :
  load_images_and_tags fs root_dir w = (Ok r, w1) ->
  has_nul root_dir = false /\ can_write (disk w) = true.
Proof.
  rewrite load_images_and_tags_unfold.
  destruct (has_nul root_dir); [discriminate|]. intros H. split; [reflexivity|].
  destruct (scan_loop _ _ w) as [[l|e] w'] eqn:E; [|discriminate].
  apply scan_loop_disk in E.
  destruct (save_cache (cache_dict l) w') as [[u|e] w''] eqn:Es; [|discriminate].
  apply save_cache_returns in Es. congruence.
Qed.

Lemma load_images_and_tags_returns_run fs root_dir w r w1 :
  load_images_and_tags fs root_dir w = (Ok r, w1) ->
  run_writable fs root_dir w = (Ok r, w1).
Proof.
  intros H. destruct (load_images_and_tags_returns _ _ _ _ _ H) as [Hn Hw].
  rewrite load_images_and_tags_run in H by assumption. exact H.
Qed.

(** When the loop raises, or the root has a NUL character, the scan raises
    before the save. *)
Lemma load_images_and_tags_raises fs root_dir w e w' :
  scan_loop (observed fs root_dir) (mkLocals (index_of (disk w)) [] ∅) w
  = (Raise e, w') ->
  exists e2 w2, load_images_and_tags fs root_dir w = (Raise e2, w2)
                /\ disk w2 = disk w.
Proof.
  intros E. rewrite load_images_and_tags_unfold, E.
  destruct (has_nul root_dir); [eauto|].
  exists e, w'. split; [reflexivity|]. apply scan_loop_disk in E. exact E.
Qed.

(** Entries of paths the loop does not visit are as they were, and no
    entry goes away. *)
Lemma scan_loop_frame files : forall l w l' w',
  scan_loop files l w = (Ok l', w') ->
  (forall q, ~ In q (map fst files) ->
             cache_dict l' !! q = cache_dict l !! q)
  /\ (forall q, is_Some (cache_dict l !! q) -> is_Some (cache_dict l' !! q)).
Proof.
  induction files as [|[p f] files IH]; intros l w l' w' H.
  - injection H as <- _. auto.
  - rewrite scan_loop_cons in H.
    destruct (visit_png_cases p f l w)
      as [(m & ts & Hm & Hr) | [(m & Hm & Hn) | (e & He & _)]].
    + rewrite (visit_png_reuse _ _ _ _ _ _ Hm Hr) in H.
      apply IH in H as [H1 H2]. cbn [cache_dict] in *. split; [|exact H2].
      intros q Hq. apply H1. intros Hin. apply Hq. right. exact Hin.
    + rewrite (visit_png_parse _ _ _ _ _ Hm Hn) in H.
      apply IH in H as [H1 H2]. cbn [cache_dict] in *. split.
      * intros q Hq. rewrite H1 by (intros Hin; apply Hq; right; exact Hin).
        apply lookup_insert_ne. intros ->. apply Hq. left. reflexivity.
      * intros q Hq. apply H2. rewrite lookup_insert.
        destruct (decide (p = q)); [eauto | exact Hq].
    + rewrite He in H. discriminate H.
Qed.


Lemma finite_mtimes_tail e files :
  finite_mtimes (e :: files) -> finite_mtimes files.
Proof. intros H p f Hin. apply (H p f). right. exact Hin. Qed.

Lemma finite_mtimes_head p f files m :
  finite_mtimes ((p, f) :: files) -> f_mtime f = Some m -> isfinite m = true.
Proof.
  intros H Hm. destruct (H p f) as (m' & Hm' & Hf); [left; reflexivity|].
  congruence.
Qed.

(** A visit that returns leaves an entry that the same file reuses, and
    reports the tags of that entry. *)
Lemma visit_png_ok p f l w la wa :
  visit_png p f l w = (Ok la, wa) ->
  exists m ts,
    f_mtime f = Some m
    /\ (isfinite m = true -> reuses (cache_dict la) p m ts)
    /\ images_data la = images_data l ++ [mkImage p ts]
    /\ all_tags la = all_tags l ∪ list_to_set ts.
Proof.
  intros H.
  destruct (visit_png_cases p f l w)
    as [(m & ts & Hm & Hr) | [(m & Hm & Hn) | (e & He & _)]].
  - rewrite (visit_png_reuse _ _ _ _ _ _ Hm Hr) in H. injection H as <- _.
    exists m, ts. auto.
  - rewrite (visit_png_parse _ _ _ _ _ Hm Hn) in H. injection H as <- _.
    exists m, (parsed_tags (f_img f)). cbn [cache_dict images_data all_tags].
    repeat split; auto using reuses_entry.
  - rewrite He in H. discriminate H.
Qed.

(** After a scan that returned, every observed file has an entry that it
    reuses, and a second run of the loop on the resulting cache repeats
    the images and the tags of the first without touching the world. *)
Lemma scan_loop_replay files : forall l w l1 w1,
  NoDup (map fst files) -> finite_mtimes files ->
  scan_loop files l w = (Ok l1, w1) ->
  (forall p f, In (p, f) files ->
     exists m ts, f_mtime f = Some m /\ reuses (cache_dict l1) p m ts)
  /\ exists X Y,
       images_data l1 = images_data l ++ X
       /\ all_tags l1 = all_tags l ∪ Y
       /\ forall l2 w2, cache_dict l2 = cache_dict l1 ->
            scan_loop files l2 w2
            = (Ok (mkLocals (cache_dict l1) (images_data l2 ++ X)
                     (all_tags l2 ∪ Y)), w2).
Proof.
  induction files as [|[p f] files IH]; intros l w l1 w1 Hnd Hfin H.
  - injection H as <- _. split; [intros ? ? []|].
    exists [], ∅. rewrite app_nil_r, (right_id_L ∅ (∪)).
    repeat split. intros [d i t] w2 Hd. cbn in Hd. subst d.
    cbn. rewrite app_nil_r, (right_id_L ∅ (∪)). reflexivity.
  - rewrite scan_loop_cons in H.
    destruct (visit_png p f l w) as [[la|e] wa] eqn:Hv; [|discriminate].
    apply visit_png_ok in Hv as (m & ts & Hm & Hr & Hi & Ht).
    specialize (Hr (finite_mtimes_head _ _ _ _ Hfin Hm)).
    cbn [map fst] in Hnd. apply NoDup_cons in Hnd as [Hp Hnd].
    rewrite list_elem_of_In in Hp.
    destruct (scan_loop_frame _ _ _ _ _ H) as [Hframe _].
    assert (Hr1 : reuses (cache_dict l1) p m ts)
      by (apply reuses_lookup with (cache_dict la); auto).
    destruct (IH _ _ _ _ Hnd (finite_mtimes_tail _ _ Hfin) H)
      as (Hall & X & Y & HX & HY & Hre).
    split.
    + intros q g [[= <- <-]|Hin]; [eauto | apply Hall; exact Hin].
    + exists (mkImage p ts :: X), (list_to_set ts ∪ Y).
      rewrite HX, Hi, HY, Ht, <- app_assoc, (assoc_L (∪)).
      repeat split. intros l2 w2 Hd.
      rewrite scan_loop_cons.
      rewrite (visit_png_reuse p f l2 w2 m ts Hm) by (rewrite Hd; exact Hr1).
      rewrite Hre by exact Hd.
      cbn [images_data all_tags].
      rewrite <- app_assoc, (assoc_L (∪)). reflexivity.
Qed.







Lemma NoDup_split_path (pre post : list (string * file)) p f :
  NoDup (map fst (pre ++ (p, f) :: post)) ->
  ~ In p (map fst pre) /\ ~ In p (map fst post).
Proof.
  rewrite map_app. cbn [map fst]. intros H.
  apply NoDup_app in H as (_ & Hdisj & Hpost).
  apply NoDup_cons in Hpost as [Hp _].
  rewrite list_elem_of_In in Hp. split; [|exact Hp].
  intros Hin. apply list_elem_of_In in Hin.
  apply (Hdisj _ Hin). left.
Qed.

(** A malformed entry that the file would reuse makes the visit raise. *)
Lemma visit_png_malformed p f l w m :
  f_mtime f = Some m ->
  cache_dict l !! p = Some JNotObject
  \/ (exists mt c, cache_dict l !! p = Some (JObject None mt)
                   /\ get_mtime (JObject None mt) = Ok c
                   /\ mtime_unchanged c m = Ok true) ->
  exists e, visit_png p f l w = (Raise e, w).
Proof.
  intros Hm [Hv|(mt & c & Hv & Hc & Hu)];
    unfold visit_png, os_path_getmtime, bind, lift, ret; rewrite Hm, Hv.
  - eexists. reflexivity.
  - rewrite Hc, Hu. eexists. reflexivity.
Qed.

(* ===================================================================== *)
(** * What does not depend on the images *)
(* ===================================================================== *)







(* ===================================================================== *)
(** * Claims on the scan *)
(* ===================================================================== *)

(** C2 (as amended).  For a root directory without NUL character that is
    missing or cannot be listed, the scan surfaces no error for the root:
    it loads the Index and saves it back, and raises only if that save
    raises; when the cache file can be written it returns no image and no
    tag. *)
Theorem scan_of_missing_root (fs : filesystem) (root_dir : string) (w : world) :
  has_nul root_dir = false ->
  fs root_dir = None \/ fs root_dir = Some (Dir None) ->
  load_images_and_tags fs root_dir w
  = match save_cache (index_of (disk w)) w with
    | (Ok _, w') => (Ok ([], []), w')
    | (Raise e, w') => (Raise e, w')
    end
  /\ (can_write (disk w) = true ->
      load_images_and_tags fs root_dir w
      = (Ok ([], []),
         mkWorld (Stored (index_of (disk w))) (opened w) (stdout w))).
Proof.
  intros Hnul H.
  assert (Hobs : observed fs root_dir = []).
  { unfold observed, walk. destruct H as [-> | ->]; reflexivity. }
  assert (E : load_images_and_tags fs root_dir w
              = match save_cache (index_of (disk w)) w with
                | (Ok _, w') => (Ok ([], []), w')
                | (Raise e, w') => (Raise e, w')
                end).
  { rewrite load_images_and_tags_unfold, Hnul, Hobs. cbn [scan_loop foldM ret].
    cbn [cache_dict images_data all_tags].
    rewrite elements_empty. reflexivity. }
  split; [exact E|]. intros Hw. rewrite E, save_cache_writable by exact Hw.
  reflexivity.
Qed.


(** C5.  When a scan has returned, the same scan run again on the world it
    left returns the same images and the same vocabulary and leaves that
    world as it is: the Index is the same, no image is opened, nothing is
    printed.  Every observed file then has an entry whose recorded time is
    within the tolerance of the file's, and whose tags are reused. *)
Theorem rescan_is_idempotent
    (fs : filesystem) (root_dir : string) (w w1 : world)
    (r : list image * list string) :
  NoDup (map fst (observed fs root_dir)) ->
  finite_mtimes (observed fs root_dir) ->
  load_images_and_tags fs root_dir w = (Ok r, w1) ->
  load_images_and_tags fs root_dir w1 = (Ok r, w1)
  /\ forall p f, In (p, f) (observed fs root_dir) ->
       exists m ts, f_mtime f = Some m
                    /\ reuses (index_of (disk w1)) p m ts.
Proof.
  intros Hnd Hfin H.
  destruct (load_images_and_tags_returns _ _ _ _ _ H) as [Hnul _].
  apply load_images_and_tags_returns_run in H. unfold run_writable in H.
  destruct (scan_loop _ _ w) as [[l1|e] wa] eqn:E; [|discriminate].
  injection H as <- <-.
  rewrite load_images_and_tags_run by (exact Hnul || reflexivity).
  unfold run_writable. cbn [disk index_of opened stdout].
  destruct (scan_loop_replay _ _ _ _ _ Hnd Hfin E)
    as (Hall & X & Y & HX & HY & Hre).
  split; [|exact Hall].
  rewrite (Hre (mkLocals (cache_dict l1) [] ∅)) by reflexivity.
  cbn [images_data all_tags cache_dict opened stdout].
  rewrite HX, HY. reflexivity.
Qed.


(** C10.  When the cache file parses, and the entry of an observed file
    is not an object, or has no ["tags"] while its recorded time (0 when
    there is none) is within the tolerance of the file's, the scan raises
    and the cache file stays as it was. *)
Theorem malformed_entry_raises
    (fs : filesystem) (root_dir : string) (w : world)
    (d : gmap string jvalue) (p : string) (f : file) (m : float) :
  disk w = Stored d ->
  NoDup (map fst (observed fs root_dir)) ->
  In (p, f) (observed fs root_dir) ->
  f_mtime f = Some m ->
  d !! p = Some JNotObject
  \/ (exists mt c, d !! p = Some (JObject None mt)
                   /\ get_mtime (JObject None mt) = Ok c
                   /\ mtime_unchanged c m = Ok true) ->
  exists e w', load_images_and_tags fs root_dir w = (Raise e, w')
               /\ disk w' = disk w.
Proof.
  intros Hd Hnd Hin Hm Hbad.
  assert (Hloop : exists e w',
            scan_loop (observed fs root_dir)
              (mkLocals (index_of (disk w)) [] ∅) w = (Raise e, w')).
  { rewrite Hd. cbn [index_of].
    apply in_split in Hin as (pre & post & Hobs). rewrite Hobs in Hnd |- *.
    apply NoDup_split_path in Hnd as [Hpre _].
    rewrite scan_loop_app.
    destruct (scan_loop pre _ w) as [[la|e] wa] eqn:E; [|eauto].
    destruct (scan_loop_frame _ _ _ _ _ E) as [Hframe _].
    cbn [cache_dict] in Hframe. rewrite scan_loop_cons.
    destruct (visit_png_malformed p f la wa m Hm) as (e & ->); [|eauto].
    rewrite (Hframe p Hpre). exact Hbad. }
  destruct Hloop as (e & w' & Hloop).
  apply (load_images_and_tags_raises _ _ _ _ _ Hloop).
Qed.

(* ===================================================================== *)
(** * The claims at the sample inputs *)
(* ===================================================================== *)

Lemma demo_fs_observed :
  observed demo_fs "/pics"
  = [("/pics/a.png",
      mkFile (Some t1)
        (PngImage (Some ["cat, (dog:1.2)"; "Negative prompt: blurry"])));
     ("/pics/b.PNG", mkFile (Some t2) (PngBroken "cannot identify image file"));
     ("/pics/sub/c.png", mkFile (Some t1) (PngImage None))].
Proof. vm_compute. reflexivity. Qed.


Lemma demo_fs_NoDup : NoDup (map fst (observed demo_fs "/pics")).
Proof. rewrite demo_fs_observed. apply (bool_decide_unpack _). vm_compute. exact I. Qed.

Lemma demo_fs_finite : finite_mtimes (observed demo_fs "/pics").
Proof.
  rewrite demo_fs_observed. intros p f Hin.
  destruct Hin as [[= <- <-]|[[= <- <-]|[[= <- <-]|[]]]];
    eexists; split; reflexivity.
Qed.

Lemma demo_scan_returns : demo_scan = (Ok demo_result, demo_world1).
Proof. vm_compute. reflexivity. Qed.

(** C2 as stated fails: nothing is at the root, and the scan returns the
    empty result instead of raising. *)
Lemma scan_of_missing_root_does_not_raise :
  no_fs "/no/such/dir" = None
  /\ load_images_and_tags no_fs "/no/such/dir" demo_world
     = (Ok ([], []), mkWorld (Stored ∅) [] [])
  /\ ~ exists e w',
         load_images_and_tags no_fs "/no/such/dir" demo_world = (Raise e, w').
Proof.
  split; [reflexivity|]. split; [vm_compute; reflexivity|].
  intros (e & w' & H). vm_compute in H. discriminate H.
Qed.

Lemma scan_of_missing_root_witness :
  load_images_and_tags no_fs "/no/such/dir" demo_world
  = (Ok ([], []), mkWorld (Stored ∅) [] []).
Proof.
  apply (proj2 (scan_of_missing_root no_fs "/no/such/dir" demo_world
                  eq_refl (or_introl eq_refl))).
  reflexivity.
Defined.



Lemma rescan_is_idempotent_witness :
  load_images_and_tags demo_fs "/pics" demo_world1
  = (Ok demo_result, demo_world1)
  /\ forall p f, In (p, f) (observed demo_fs "/pics") ->
       exists m ts, f_mtime f = Some m
                    /\ reuses (index_of (disk demo_world1)) p m ts.
Proof.
  apply (rescan_is_idempotent demo_fs "/pics" demo_world demo_world1 demo_result).
  - exact demo_fs_NoDup.
  - exact demo_fs_finite.
  - exact demo_scan_returns.
Defined.


Lemma malformed_entry_raises_witness :
  exists e w',
    load_images_and_tags epoch_fs "/old" epoch_world = (Raise e, w')
    /\ disk w' = disk epoch_world.
Proof.
  apply (malformed_entry_raises epoch_fs "/old" epoch_world epoch_index
           "/old/a.png" epoch_file (S754_zero false)).
  - reflexivity.
  - apply (bool_decide_unpack _). vm_compute. exact I.
  - vm_compute. left. reflexivity.
  - reflexivity.
  - right. exists None, (JNum (PyInt 0)).
    split; [vm_compute; reflexivity|]. split; reflexivity.
Defined.

(* ===================================================================== *)
(** * More on the text normaliser *)
(* ===================================================================== *)

Lemma isparen_lower c : isparen (lower_char c) = isparen c.
Proof. by_cases_on_char c. Qed.

Lemma iscolon_lower c : iscolon (lower_char c) = iscolon c.
Proof. by_cases_on_char c. Qed.

Lemma isdigit_lower c : isdigit (lower_char c) = isdigit c.
Proof. by_cases_on_char c. Qed.

Lemma isdot_lower c : isdot (lower_char c) = isdot c.
Proof. by_cases_on_char c. Qed.

Lemma match_star_marker_cons c r :
  match_star_marker (String c r)
  = match match_star_marker r with
    | Some g => Some (String c g)
    | None => if literal_ci marker (String c r) then Some EmptyString
              else None
    end.
Proof. reflexivity. Qed.

Lemma marker_absent s : match_star_marker s = None <-> ~ marker_occurs s.
Proof.
  split.
  - induction s as [|c r IH]; intros H (a & b & Hs & Hb).
    + destruct a; [|discriminate]. change (EmptyString = b) in Hs. subst b.
      vm_compute in Hb. discriminate Hb.
    + rewrite match_star_marker_cons in H.
      destruct (match_star_marker r) eqn:Er; [discriminate|].
      destruct (literal_ci marker (String c r)) eqn:El; [discriminate|].
      destruct a as [|x a].
      * change (String c r = b) in Hs. subst b. congruence.
      * change (String c r = String x (a +:+ b)) in Hs.
        injection Hs as -> ->. apply IH; [reflexivity|]. exists a, b. auto.
  - intros H. destruct (match_star_marker s) as [g|] eqn:E; [|reflexivity].
    exfalso. apply H. apply match_star_marker_last in E as (rest & -> & Hm & _).
    exists g, rest. auto.
Qed.

(** X1.  [parse_positive_prompt] keeps the whole text, trimmed, when the
    marker does not occur; when it occurs, the text kept is the trimmed
    prefix that ends where the last occurrence starts. *)
Theorem parse_positive_prompt_last_marker (s : string) :
  (~ marker_occurs s /\ parse_positive_prompt s = strip s)
  \/ (exists g rest,
        s = g +:+ rest /\ literal_ci marker rest = true
        /\ ~ marker_occurs (drop_chars 1 rest)
        /\ parse_positive_prompt s = strip g).
Proof.
  unfold parse_positive_prompt. rewrite re_search_head.
  destruct (match_star_marker s) as [g|] eqn:E.
  - right. apply match_star_marker_last in E as (rest & -> & Hm & Hl).
    exists g, rest. repeat split; try assumption. apply marker_absent, Hl.
  - left. split; [apply marker_absent, E | reflexivity].
Qed.

Lemma literal_ci_lower pat s : literal_ci pat (lower s) = literal_ci pat s.
Proof.
  revert s. induction pat as [|p pat IH]; intros [|c s]; try reflexivity.
  cbn. rewrite lower_char_idem, IH. reflexivity.
Qed.

Lemma match_star_marker_lower s :
  match_star_marker (lower s) = option_map lower (match_star_marker s).
Proof.
  induction s as [|c r IH]; [reflexivity|].
  change (lower (String c r)) with (String (lower_char c) (lower r)).
  rewrite !match_star_marker_cons, IH.
  destruct (match_star_marker r); [reflexivity|]. cbn [option_map].
  change (String (lower_char c) (lower r)) with (lower (String c r)).
  rewrite literal_ci_lower.
  destruct (literal_ci marker (String c r)); reflexivity.
Qed.

Lemma parse_positive_prompt_lower s :
  parse_positive_prompt (lower s) = lower (parse_positive_prompt s).
Proof.
  unfold parse_positive_prompt.
  rewrite !re_search_head, match_star_marker_lower.
  destruct (match_star_marker s); cbn [option_map]; apply strip_lower.
Qed.

Lemma remove_parens_lower s : remove_parens (lower s) = lower (remove_parens s).
Proof.
  induction s as [|c r IH]; [reflexivity|]. cbn.
  rewrite isparen_lower, IH. destruct (isparen c); reflexivity.
Qed.

Lemma count_digits_lower s : count_digits (lower s) = count_digits s.
Proof.
  induction s as [|c r IH]; [reflexivity|]. cbn.
  rewrite isdigit_lower, IH. reflexivity.
Qed.

Lemma drop_chars_lower n s : drop_chars n (lower s) = lower (drop_chars n s).
Proof.
  revert s. induction n as [|n IH]; intros [|c r]; try reflexivity.
  cbn. apply IH.
Qed.

Lemma match_weight_lower s : match_weight (lower s) = match_weight s.
Proof.
  destruct s as [|c r]; [reflexivity|].
  change (lower (String c r)) with (String (lower_char c) (lower r)).
  unfold match_weight. rewrite iscolon_lower, count_digits_lower.
  destruct (iscolon c); [|reflexivity].
  destruct (count_digits r) as [|n]; [reflexivity|].
  rewrite drop_chars_lower.
  destruct (drop_chars (S n) r) as [|d r2]; [reflexivity|].
  change (lower (String d r2)) with (String (lower_char d) (lower r2)).
  cbv iota. rewrite isdot_lower, count_digits_lower. reflexivity.
Qed.

Lemma sub_weight_lower s : forall k,
  sub_weight k (lower s) = lower (sub_weight k s).
Proof.
  induction s as [|c r IH]; intros k; [reflexivity|].
  destruct k as [|k]; [|apply IH].
  change (lower (String c r)) with (String (lower_char c) (lower r)).
  rewrite !sub_weight_zero.
  change (String (lower_char c) (lower r)) with (lower (String c r)).
  rewrite match_weight_lower.
  destruct (match_weight (String c r)); [apply IH|].
  cbn [lower]. rewrite IH. reflexivity.
Qed.

Lemma clean_prompt_text_lower s :
  clean_prompt_text (lower s) = lower (clean_prompt_text s).
Proof.
  unfold clean_prompt_text. rewrite remove_parens_lower. apply sub_weight_lower.
Qed.

Lemma split_comma_nonempty s : split_comma s <> [].
Proof.
  destruct s as [|c r]; cbn; [discriminate|].
  destruct (iscomma c); [discriminate|].
  destruct (split_comma r); discriminate.
Qed.

Lemma split_comma_lower s : split_comma (lower s) = map lower (split_comma s).
Proof.
  induction s as [|c r IH]; [reflexivity|]. cbn.
  rewrite iscomma_lower, IH. destruct (iscomma c); [reflexivity|].
  destruct (split_comma r); reflexivity.
Qed.

Lemma tokenize_prompt_lower s : tokenize_prompt (lower s) = tokenize_prompt s.
Proof.
  unfold tokenize_prompt, list_set. rewrite split_comma_lower. f_equal.
  induction (split_comma s) as [|x l IH]; [reflexivity|].
  cbn [map List.filter].
  rewrite strip_lower, nonempty_lower.
  destruct (nonempty (strip x)); [|exact IH].
  cbn [map]. rewrite strip_lower, lower_idem, IH. reflexivity.
Qed.

(** X2.  For a text whose characters are code points below 256, the
    letter case does not matter: the lower-cased text gives the same
    tags. *)
Theorem extract_tags_case_insensitive (raw_text : string) :
  extract_tags (lower raw_text) = extract_tags raw_text.
Proof.
  unfold extract_tags.
  rewrite parse_positive_prompt_lower, clean_prompt_text_lower.
  apply tokenize_prompt_lower.
Qed.

Lemma remove_parens_id s : has isparen s = false -> remove_parens s = s.
Proof.
  induction s as [|c r IH]; [reflexivity|]. cbn. intros H.
  apply orb_false_iff in H as [Hc Hr]. rewrite Hc, IH by exact Hr. reflexivity.
Qed.

Lemma match_weight_absent c r :
  iscolon c && head_is isdigit r = false -> match_weight (String c r) = None.
Proof.
  unfold match_weight. destruct (iscolon c); [|reflexivity]. cbn [andb].
  destruct r as [|x r']; [reflexivity|]. cbn. intros ->. reflexivity.
Qed.

Lemma sub_weight_id s : has_weight s = false -> sub_weight 0 s = s.
Proof.
  induction s as [|c r IH]; [reflexivity|]. intros H.
  cbn [has_weight] in H. apply orb_false_iff in H as [Hc Hr].
  rewrite sub_weight_zero, (match_weight_absent _ _ Hc), IH by exact Hr.
  reflexivity.
Qed.

(** X3.  Cleaning is idempotent: a cleaned text is left as it is, and so
    is any text without parentheses and without a colon before a digit. *)
Theorem clean_prompt_text_idempotent (prompt : string) :
  clean_prompt_text (clean_prompt_text prompt) = clean_prompt_text prompt
  /\ (has isparen prompt = false -> has_weight prompt = false ->
      clean_prompt_text prompt = prompt).
Proof.
  assert (Hid : forall s, has isparen s = false -> has_weight s = false ->
                          clean_prompt_text s = s).
  { intros s Hp Hw. unfold clean_prompt_text.
    rewrite remove_parens_id by exact Hp. apply sub_weight_id, Hw. }
  split; [|apply Hid].
  apply Hid.
  - apply has_sub_weight, has_remove_parens.
  - apply has_weight_sub_weight.
Qed.

Lemma clean_prompt_text_idempotent_witness :
  clean_prompt_text "blue sky, 1girl" = "blue sky, 1girl".
Proof.
  apply (proj2 (clean_prompt_text_idempotent "blue sky, 1girl")); reflexivity.
Defined.

Lemma chars_remove_parens s : chars (remove_parens s) `sublist_of` chars s.
Proof.
  induction s as [|c r IH]; cbn; [constructor|].
  destruct (isparen c); cbn; [apply sublist_cons | apply sublist_skip]; exact IH.
Qed.

Lemma chars_sub_weight s : forall k, chars (sub_weight k s) `sublist_of` chars s.
Proof.
  induction s as [|c r IH]; intros k; [constructor|].
  destruct k as [|k]; [|cbn; apply sublist_cons, IH].
  rewrite sub_weight_zero.
  destruct (match_weight (String c r)); cbn;
    [apply sublist_cons | apply sublist_skip]; apply IH.
Qed.

(** X4.  Cleaning only deletes characters: the characters of the result
    are a subsequence of those of the prompt, so the result is no longer
    than the prompt. *)
Theorem clean_prompt_text_only_deletes (prompt : string) :
  chars (clean_prompt_text prompt) `sublist_of` chars prompt
  /\ String.length (clean_prompt_text prompt) <= String.length prompt.
Proof.
  assert (H : chars (clean_prompt_text prompt) `sublist_of` chars prompt).
  { unfold clean_prompt_text.
    etransitivity; [apply chars_sub_weight | apply chars_remove_parens]. }
  split; [exact H|].
  assert (Hl : forall s, String.length s = length (chars s))
    by (induction s as [|c r IH]; cbn; congruence).
  rewrite !Hl. apply sublist_length, H.
Qed.

Lemma split_comma_single t : has iscomma t = false -> split_comma t = [t].
Proof.
  induction t as [|c r IH]; [reflexivity|]. cbn. intros H.
  apply orb_false_iff in H as [Hc Hr]. rewrite Hc, IH by exact Hr. reflexivity.
Qed.

(** X5.  A tag that [tokenize_prompt] returns is a fixed point of it:
    tokenizing the tag alone gives that one tag back. *)
Theorem tokenize_prompt_tag_fixed (prompt t : string) :
  In t (tokenize_prompt prompt) -> tokenize_prompt t = [t].
Proof.
  intros H. apply tokenize_prompt_normalised in H as (Hne & Hl & Hs & Hc).
  unfold tokenize_prompt, list_set. rewrite split_comma_single by exact Hc.
  cbn [List.filter]. rewrite Hs, Hne. cbn [map]. rewrite Hs, Hl.
  reflexivity.
Qed.

Lemma tokenize_prompt_tag_fixed_witness :
  tokenize_prompt "blue sky" = ["blue sky"].
Proof.
  apply (tokenize_prompt_tag_fixed " Cat , Blue Sky, cat" "blue sky").
  vm_compute. left. reflexivity.
Defined.

Lemma split_comma_app a b :
  split_comma (a +:+ "," +:+ b) = split_comma a ++ split_comma b.
Proof.
  induction a as [|c a IH]; [reflexivity|].
  change (String c a +:+ "," +:+ b) with (String c (a +:+ "," +:+ b)).
  cbn [split_comma]. rewrite IH.
  destruct (iscomma c); [reflexivity|].
  destruct (split_comma a) as [|x xs] eqn:E; [|reflexivity].
  destruct (split_comma_nonempty a E).
Qed.

Lemma tokenize_prompt_In prompt t :
  In t (tokenize_prompt prompt) <->
  exists x, In x (split_comma prompt) /\ nonempty (strip x) = true
            /\ t = lower (strip x).
Proof.
  split; [apply tokenize_prompt_elem|].
  intros (x & Hx & Hne & ->). unfold tokenize_prompt, list_set.
  rewrite <- list_elem_of_In, elem_of_remove_dups, list_elem_of_In.
  apply in_map_iff. exists x. split; [reflexivity|].
  apply filter_In. auto.
Qed.

(** X6.  Tokenizing two prompts joined by a comma gives the tags of the
    one and the tags of the other, and nothing else. *)
Theorem tokenize_prompt_comma (a b t : string) :
  In t (tokenize_prompt (a +:+ "," +:+ b))
  <-> In t (tokenize_prompt a) \/ In t (tokenize_prompt b).
Proof.
  rewrite !tokenize_prompt_In, split_comma_app. split.
  - intros (x & Hx & H). apply in_app_or in Hx as [Hx|Hx]; [left|right]; eauto.
  - intros [(x & Hx & H)|(x & Hx & H)]; exists x; split; auto;
      apply in_or_app; auto.
Qed.

Lemma has_paren_lower s : has isparen (lower s) = has isparen s.
Proof. induction s as [|c r IH]; cbn; [|rewrite isparen_lower, IH]; reflexivity. Qed.

Lemma head_is_lower (p : ascii -> bool) s :
  (forall c, p (lower_char c) = p c) -> head_is p (lower s) = head_is p s.
Proof. intros Hp. destruct s; cbn; [reflexivity | apply Hp]. Qed.

Lemma has_weight_lower s : has_weight (lower s) = has_weight s.
Proof.
  induction s as [|c r IH]; [reflexivity|]. cbn [lower has_weight].
  rewrite iscolon_lower, (head_is_lower isdigit r isdigit_lower), IH.
  reflexivity.
Qed.

Lemma has_weight_lstrip s : has_weight s = false -> has_weight (lstrip s) = false.
Proof.
  induction s as [|c r IH]; [reflexivity|]. intros H. cbn [lstrip].
  destruct (isspace c); [|exact H].
  cbn [has_weight] in H. apply orb_false_iff in H as [_ Hr]. auto.
Qed.

Lemma rstrip_head_is p s :
  head_is p (rstrip s) = true -> head_is p s = true.
Proof.
  destruct s as [|c r]; [auto|]. cbn.
  destruct (rstrip r); [destruct (isspace c)|]; cbn; auto. discriminate.
Qed.

Lemma has_weight_rstrip s : has_weight s = false -> has_weight (rstrip s) = false.
Proof.
  induction s as [|c r IH]; [reflexivity|]. intros H.
  cbn [has_weight] in H. apply orb_false_iff in H as [Hc Hr].
  specialize (IH Hr). cbn [rstrip].
  destruct (rstrip r) as [|x r'] eqn:E.
  - destruct (isspace c); cbn; [reflexivity|]. rewrite andb_false_r. reflexivity.
  - change (iscolon c && head_is isdigit (String x r')
            || has_weight (String x r') = false).
    rewrite IH, orb_false_r.
    destruct (iscolon c); [|reflexivity]. cbn [andb] in *.
    destruct (head_is isdigit (String x r')) eqn:Eh; [|reflexivity].
    rewrite <- E in Eh. apply rstrip_head_is in Eh. congruence.
Qed.

Lemma split_comma_head p s x xs :
  split_comma s = x :: xs -> head_is p x = true -> head_is p s = true.
Proof.
  destruct s as [|c r]; cbn.
  - intros [= <- <-] H. discriminate H.
  - destruct (iscomma c).
    + intros [= <- <-] H. discriminate H.
    + destruct (split_comma r); intros [= <- <-]; auto.
Qed.

Lemma split_comma_has p s :
  has p s = false -> Forall (fun x => has p x = false) (split_comma s).
Proof.
  induction s as [|c r IH]; cbn; [repeat constructor|]. intros H.
  apply orb_false_iff in H as [Hc Hr]. specialize (IH Hr).
  destruct (iscomma c); [constructor; [reflexivity | exact IH]|].
  destruct (split_comma r) as [|x xs].
  - repeat constructor. cbn. rewrite Hc. reflexivity.
  - inversion IH; subst. constructor; [|assumption]. cbn. rewrite Hc. assumption.
Qed.

Lemma split_comma_has_weight s :
  has_weight s = false ->
  Forall (fun x => has_weight x = false) (split_comma s).
Proof.
  induction s as [|c r IH]; [repeat constructor|]. intros H.
  cbn [has_weight] in H. apply orb_false_iff in H as [Hc Hr].
  specialize (IH Hr). cbn [split_comma].
  destruct (iscomma c); [constructor; [reflexivity | exact IH]|].
  destruct (split_comma r) as [|x xs] eqn:E.
  - repeat constructor. cbn. rewrite andb_false_r. reflexivity.
  - inversion IH; subst. constructor; [|assumption].
    cbn [has_weight]. rewrite H1, orb_false_r.
    destruct (iscolon c); [|reflexivity]. cbn [andb] in *.
    destruct (head_is isdigit x) eqn:Eh; [|reflexivity].
    apply (split_comma_head _ _ _ _ E) in Eh. congruence.
Qed.

(** X7.  No tag that [extract_tags] returns has a parenthesis or a colon
    immediately followed by a digit. *)
Theorem extract_tags_clean (raw_text : string) :
  Forall (fun t => has isparen t = false /\ has_weight t = false)
         (extract_tags raw_text).
Proof.
  apply Forall_forall. intros t Ht. apply list_elem_of_In in Ht.
  unfold extract_tags in Ht.
  apply tokenize_prompt_elem in Ht as (x & Hx & _ & ->).
  apply list_elem_of_In in Hx.
  set (c := clean_prompt_text (parse_positive_prompt raw_text)) in *.
  assert (Hp : has isparen c = false)
    by apply has_sub_weight, has_remove_parens.
  assert (Hw : has_weight c = false) by apply has_weight_sub_weight.
  pose proof (split_comma_has isparen c Hp) as H1.
  pose proof (split_comma_has_weight c Hw) as H2.
  rewrite Forall_forall in H1, H2. split.
  - rewrite has_paren_lower. apply has_strip, H1, Hx.
  - rewrite has_weight_lower. apply has_weight_rstrip, has_weight_lstrip, H2, Hx.
Qed.

(* ===================================================================== *)
(** * More on the scan *)
(* ===================================================================== *)

Lemma scan_loop_paths files : forall l w l' w',
  scan_loop files l w = (Ok l', w') ->
  map path (images_data l') = map path (images_data l) ++ map fst files.
Proof.
  induction files as [|[p f] files IH]; intros l w l' w' H.
  - injection H as <- _. cbn. rewrite app_nil_r. reflexivity.
  - rewrite scan_loop_cons in H.
    destruct (visit_png p f l w) as [[la|e] wa] eqn:Hv; [|discriminate].
    apply visit_png_ok in Hv as (m & ts & _ & _ & Hi & _).
    rewrite (IH _ _ _ _ H), Hi, map_app, <- app_assoc. reflexivity.
Qed.

(** X8.  A scan that returns reports every observed [.png] file once, in
    the order of the walk, and nothing else. *)
Theorem scan_reports_observed_files
    (fs : filesystem) (root_dir : string) (w w1 : world)
    (r : list image * list string) :
  load_images_and_tags fs root_dir w = (Ok r, w1) ->
  map path (fst r) = map fst (observed fs root_dir).
Proof.
  intros H. apply load_images_and_tags_returns_run in H.
  unfold run_writable in H.
  destruct (scan_loop _ _ w) as [[l1|e] wa] eqn:E; [|discriminate].
  injection H as <- <-. apply scan_loop_paths in E. exact E.
Qed.

Lemma scan_reports_observed_files_witness :
  map path (fst demo_result)
  = ["/pics/a.png"; "/pics/b.PNG"; "/pics/sub/c.png"].
Proof.
  rewrite (scan_reports_observed_files demo_fs "/pics" demo_world demo_world1
             demo_result demo_scan_returns).
  rewrite demo_fs_observed. reflexivity.
Defined.

Lemma scan_loop_tags files : forall l w l' w',
  tags_collected l -> scan_loop files l w = (Ok l', w') -> tags_collected l'.
Proof.
  induction files as [|[p f] files IH]; intros l w l' w' Hl H.
  - injection H as <- _. exact Hl.
  - rewrite scan_loop_cons in H.
    destruct (visit_png p f l w) as [[la|e] wa] eqn:Hv; [|discriminate].
    apply visit_png_ok in Hv as (m & ts & _ & _ & Hi & Ht).
    apply (IH _ _ _ _) in H; [exact H|].
    intros t. rewrite Ht, Hi, elem_of_union, elem_of_list_to_set, (Hl t).
    split.
    + intros [(img & Hin & Htag)|Hts].
      * exists img. split; [apply in_or_app; left|]; assumption.
      * exists (mkImage p ts). split; [apply in_or_app; right; left; reflexivity|].
        apply list_elem_of_In. exact Hts.
    + intros (img & Hin & Htag). apply in_app_or in Hin as [Hin|[<-|[]]].
      * left. eauto.
      * right. apply list_elem_of_In. exact Htag.
Qed.

Lemma str_leb_total a : forall b, str_leb a b = true \/ str_leb b a = true.
Proof.
  induction a as [|x a IH]; intros [|y b]; cbn; auto.
  destruct (code x <? code y)%N eqn:E1, (code y <? code x)%N eqn:E2; auto.
Qed.

Lemma insert_sorted_perm x l : insert_sorted x l ≡ₚ x :: l.
Proof.
  induction l as [|y l IH]; cbn; [reflexivity|].
  destruct (str_leb x y); [reflexivity|].
  rewrite IH. apply Permutation_swap.
Qed.

Lemma sorted_perm l : sorted l ≡ₚ l.
Proof.
  induction l as [|x l IH]; cbn; [reflexivity|].
  rewrite insert_sorted_perm, IH. reflexivity.
Qed.

Lemma insert_sorted_Sorted x l :
  Sorted (fun a b => str_leb a b = true) l ->
  Sorted (fun a b => str_leb a b = true) (insert_sorted x l).
Proof.
  induction l as [|y l IH]; intros Hs; cbn.
  - repeat constructor.
  - destruct (str_leb x y) eqn:E.
    + constructor; [exact Hs | constructor; exact E].
    + apply Sorted_inv in Hs as [Hs Hd]. constructor; [apply IH, Hs|].
      destruct (str_leb_total x y) as [H|H]; [congruence|].
      destruct l as [|z l]; cbn.
      * constructor. exact H.
      * destruct (str_leb x z); constructor; [exact H|].
        inversion Hd; assumption.
Qed.

Lemma sorted_Sorted l : Sorted (fun a b => str_leb a b = true) (sorted l).
Proof.
  induction l as [|x l IH]; cbn; [constructor | apply insert_sorted_Sorted, IH].
Qed.

Lemma scan_vocabulary_elem fs root_dir w w1 r :
  load_images_and_tags fs root_dir w = (Ok r, w1) ->
  forall t, In t (snd r) <-> exists img, In img (fst r) /\ In t (tags img).
Proof.
  intros H. apply load_images_and_tags_returns_run in H.
  unfold run_writable in H.
  destruct (scan_loop _ _ w) as [[l1|e] wa] eqn:E; [|discriminate].
  injection H as <- <-. intros t. cbn [fst snd].
  apply scan_loop_tags in E.
  - rewrite <- (E t), <- list_elem_of_In, sorted_perm, elem_of_elements.
    reflexivity.
  - intros t'. cbn. split; [intros H; apply not_elem_of_empty in H; destruct H|].
    intros (img & [] & _).
Qed.

(** X9.  The vocabulary a scan returns is in code-point order, has no
    duplicate, and holds exactly the tags of the images it returns. *)
Theorem scan_vocabulary
    (fs : filesystem) (root_dir : string) (w w1 : world)
    (r : list image * list string) :
  load_images_and_tags fs root_dir w = (Ok r, w1) ->
  Sorted (fun a b => str_leb a b = true) (snd r)
  /\ NoDup (snd r)
  /\ forall t, In t (snd r) <-> exists img, In img (fst r) /\ In t (tags img).
Proof.
  intros H. split; [|split; [|exact (scan_vocabulary_elem _ _ _ _ _ H)]].
  - apply load_images_and_tags_returns_run in H. unfold run_writable in H.
    destruct (scan_loop _ _ w) as [[l1|e] wa]; [|discriminate].
    injection H as <- _. apply sorted_Sorted.
  - apply load_images_and_tags_returns_run in H. unfold run_writable in H.
    destruct (scan_loop _ _ w) as [[l1|e] wa]; [|discriminate].
    injection H as <- _. cbn [snd]. rewrite sorted_perm. apply NoDup_elements.
Qed.

Lemma scan_vocabulary_witness :
  Sorted (fun a b => str_leb a b = true) (snd demo_result)
  /\ NoDup (snd demo_result)
  /\ forall t, In t (snd demo_result)
               <-> exists img, In img (fst demo_result) /\ In t (tags img).
Proof.
  exact (scan_vocabulary demo_fs "/pics" demo_world demo_world1 demo_result
           demo_scan_returns).
Defined.

Lemma filter_images_In images query img :
  In img (filter_images images query)
  <-> In img images /\ forall t, In t query -> In t (tags img).
Proof.
  unfold filter_images. destruct query as [|q query].
  - split; [intros H; split; [exact H | intros t []] | intros [H _]; exact H].
  - rewrite filter_In, issubset_spec. split; intros [H1 H2]; split; auto.
    + intros t Ht. apply list_elem_of_In, H2, list_elem_of_In, Ht.
    + intros t Ht. apply list_elem_of_In, H2, list_elem_of_In, Ht.
Qed.

(** X10.  Every tag of the vocabulary a scan returns selects at least one
    of the images it returns: no entry of the search box filters to an
    empty grid. *)
Theorem vocabulary_tag_selects_an_image
    (fs : filesystem) (root_dir : string) (w w1 : world)
    (r : list image * list string) (t : string) :
  load_images_and_tags fs root_dir w = (Ok r, w1) ->
  In t (snd r) ->
  exists img, In img (filter_images (fst r) [t]) /\ In t (tags img).
Proof.
  intros H Ht. apply (scan_vocabulary_elem _ _ _ _ _ H) in Ht as (img & Hi & Htag).
  exists img. split; [|exact Htag]. apply filter_images_In. split; [exact Hi|].
  intros t' [<-|[]]. exact Htag.
Qed.

Lemma vocabulary_tag_selects_an_image_witness :
  exists img, In img (filter_images (fst demo_result) ["dog"])
              /\ In "dog" (tags img).
Proof.
  apply (vocabulary_tag_selects_an_image demo_fs "/pics" demo_world demo_world1
           demo_result "dog" demo_scan_returns).
  vm_compute. right. left. reflexivity.
Defined.




Lemma save_cache_raises d w e w' :
  save_cache d w = (Raise e, w') ->
  disk w' = disk w
  \/ ((exists c, disk w = Faulty (DumpFails e) c) /\ index_of (disk w') = ∅).
Proof.
  unfold save_cache. destruct (disk w) as [| | |[e0|e0] c] eqn:Ed;
    try discriminate; intros [= <- <-].
  - left. exact Ed.
  - right. split; [eauto | reflexivity].
Qed.

(** X12.  On a cache of well-formed entries, a scan that raises leaves the
    cache file as it was, with one exception: when it is [json.dump] that
    raises, the file was already truncated, and the next [load_cache]
    reads the empty Index.  (Well-formed entries have strings as tags, as
    every entry of the model has: [sorted], which runs after the save,
    then cannot raise.) *)
Theorem scan_that_raises_keeps_or_truncates
    (fs : filesystem) (root_dir : string) (w w' : world) (e : exn) :
  wf_index (index_of (disk w)) ->
  load_images_and_tags fs root_dir w = (Raise e, w') ->
  disk w' = disk w
  \/ ((exists c, disk w = Faulty (DumpFails e) c)
      /\ load_cache w' = (Ok ∅, w')).
Proof.
  intros _. rewrite load_images_and_tags_unfold.
  destruct (has_nul root_dir); [intros [= _ <-]; auto|].
  destruct (scan_loop _ _ w) as [[l1|e'] wa] eqn:E.
  - apply scan_loop_disk in E.
    destruct (save_cache (cache_dict l1) wa) as [[u|e'] w''] eqn:Es;
      [discriminate|].
    intros [= <- <-]. apply save_cache_raises in Es as [Hd|[[c Hc] Hi]].
    + left. congruence.
    + right. split; [exists c; congruence|].
      rewrite load_cache_run, Hi. reflexivity.
  - intros [= _ <-]. left. apply scan_loop_disk in E. exact E.
Qed.

Lemma scan_that_raises_keeps_or_truncates_witness :
  disk (snd (load_images_and_tags demo_fs "/pics"
               (mkWorld (Faulty (DumpFails (OSError "No space left on device"))
                           (Stored ∅)) [] [])))
  = Faulty (DumpFails (OSError "No space left on device")) (Stored ∅)
  \/ ((exists c, Faulty (DumpFails (OSError "No space left on device")) (Stored ∅)
                 = Faulty (DumpFails (OSError "No space left on device")) c)
      /\ load_cache (snd (load_images_and_tags demo_fs "/pics"
                            (mkWorld (Faulty (DumpFails (OSError "No space left on device"))
                                        (Stored ∅)) [] [])))
         = (Ok ∅, snd (load_images_and_tags demo_fs "/pics"
                          (mkWorld (Faulty (DumpFails (OSError "No space left on device"))
                                      (Stored ∅)) [] [])))).
Proof.
  apply (scan_that_raises_keeps_or_truncates demo_fs "/pics"
           (mkWorld (Faulty (DumpFails (OSError "No space left on device"))
                       (Stored ∅)) [] [])
           _ (OSError "No space left on device")).
  - intros p v H. cbn in H. rewrite lookup_empty in H. discriminate H.
  - vm_compute. reflexivity.
Defined.

Lemma scan_loop_stat_fail p f files : forall l w,
  In (p, f) files -> f_mtime f = None ->
  exists e w', scan_loop files l w = (Raise e, w').
Proof.
  induction files as [|[q g] files IH]; intros l w Hin Hm; [destruct Hin|].
  rewrite scan_loop_cons. destruct Hin as [[= -> ->]|Hin].
  - unfold visit_png, os_path_getmtime, bind, raise. rewrite Hm. eauto.
  - destruct (visit_png q g l w) as [[la|e] wa]; [apply IH; assumption | eauto].
Qed.

(** X13.  An observed [.png] file that cannot be stat-ed makes the whole
    scan raise, and the cache file stays as it was: [os.path.getmtime] is
    called outside any handler. *)
Theorem unstatable_file_aborts_scan
    (fs : filesystem) (root_dir : string) (w : world) (p : string) (f : file) :
  In (p, f) (observed fs root_dir) ->
  f_mtime f = None ->
  exists e w', load_images_and_tags fs root_dir w = (Raise e, w')
               /\ disk w' = disk w.
Proof.
  intros Hin Hm.
  destruct (scan_loop_stat_fail p f _ (mkLocals (index_of (disk w)) [] ∅) w Hin Hm)
    as (e & w' & Hrun).
  apply (load_images_and_tags_raises _ _ _ _ _ Hrun).
Qed.



Lemma unstatable_file_aborts_scan_witness :
  exists e w', load_images_and_tags dangling_fs "/links" demo_world = (Raise e, w')
               /\ disk w' = disk demo_world.
Proof.
  apply (unstatable_file_aborts_scan dangling_fs "/links" demo_world
           "/links/gone.png" dangling_file).
  - vm_compute. right. left. reflexivity.
  - reflexivity.
Defined.

Lemma scan_loop_coherent files : forall l w l1 w1,
  NoDup (map fst files) -> finite_mtimes files ->
  scan_loop files l w = (Ok l1, w1) ->
  exists X, images_data l1 = images_data l ++ X
            /\ forall img, In img X ->
                 exists v, cache_dict l1 !! path img = Some v
                           /\ get_tags v = Ok (tags img).
Proof.
  induction files as [|[p f] files IH]; intros l w l1 w1 Hnd Hfin H.
  - injection H as <- _. exists []. rewrite app_nil_r. split; [reflexivity|].
    intros ? [].
  - rewrite scan_loop_cons in H.
    destruct (visit_png p f l w) as [[la|e] wa] eqn:Hv; [|discriminate].
    apply visit_png_ok in Hv as (m & ts & Hm & Hr & Hi & _).
    specialize (Hr (finite_mtimes_head _ _ _ _ Hfin Hm)).
    cbn [map fst] in Hnd. apply NoDup_cons in Hnd as [Hp Hnd].
    rewrite list_elem_of_In in Hp.
    destruct (scan_loop_frame _ _ _ _ _ H) as [Hframe _].
    destruct (IH _ _ _ _ Hnd (finite_mtimes_tail _ _ Hfin) H) as (X & HX & Hall).
    exists (mkImage p ts :: X). rewrite HX, Hi, <- app_assoc.
    split; [reflexivity|].
    intros img [<-|Hin]; [|apply Hall; exact Hin].
    destruct Hr as (v & c & Hv & _ & _ & Ht). exists v. cbn [path tags].
    rewrite Hframe by exact Hp. auto.
Qed.

(** X15.  After a scan over files of distinct paths, every image returned
    carries the tags that the saved Index stores under its path. *)
Theorem scan_result_agrees_with_index
    (fs : filesystem) (root_dir : string) (w w1 : world)
    (r : list image * list string) :
  NoDup (map fst (observed fs root_dir)) ->
  finite_mtimes (observed fs root_dir) ->
  load_images_and_tags fs root_dir w = (Ok r, w1) ->
  forall img, In img (fst r) ->
    exists v, index_of (disk w1) !! path img = Some v
              /\ get_tags v = Ok (tags img).
Proof.
  intros Hnd Hfin H. apply load_images_and_tags_returns_run in H.
  unfold run_writable in H.
  destruct (scan_loop _ _ w) as [[l1|e] wa] eqn:E; [|discriminate].
  injection H as <- <-. cbn [fst disk index_of].
  destruct (scan_loop_coherent _ _ _ _ _ Hnd Hfin E) as (X & HX & Hall).
  cbn [images_data] in HX. rewrite HX. exact Hall.
Qed.

Lemma scan_result_agrees_with_index_witness :
  exists v, index_of (disk demo_world1) !! "/pics/a.png" = Some v
            /\ get_tags v = Ok ["cat"; "dog"].
Proof.
  apply (scan_result_agrees_with_index demo_fs "/pics" demo_world demo_world1
           demo_result demo_fs_NoDup demo_fs_finite demo_scan_returns
           (mkImage "/pics/a.png" ["cat"; "dog"])).
  vm_compute. left. reflexivity.
Defined.









(* ===================================================================== *)
(** * More on [main]: the filter, the sidebar, the grid *)
(* ===================================================================== *)

Lemma filter_images_spec images query :
  filter_images images query = filter (fun img => query ⊆ tags img) images.
Proof.
  unfold filter_images. destruct query as [|q query].
  - rewrite filter_all; [reflexivity|]. intros img t Ht. inversion Ht.
  - apply filter_reflect. intros img. apply issubset_spec.
Qed.

(** X17.  Filtering by one selection and then by another is filtering by
    both at once; in particular a larger selection never shows an image
    that a smaller one hides. *)
Theorem filter_images_compose (images : list image) (q1 q2 : list string) :
  filter_images (filter_images images q1) q2 = filter_images images (q1 ++ q2)
  /\ filter_images images (q1 ++ q2) ⊆ filter_images images q1.
Proof.
  assert (E : filter_images (filter_images images q1) q2
              = filter_images images (q1 ++ q2)).
  { rewrite !filter_images_spec, list_filter_filter.
    apply list_filter_iff. intros img. split.
    - intros [H2 H1] t Ht. apply elem_of_app in Ht as [Ht|Ht]; auto.
    - intros H. split; intros t Ht; apply H, elem_of_app; auto. }
  split; [exact E|]. rewrite <- E, (filter_images_spec _ q2).
  intros img Himg. apply list_elem_of_filter in Himg as [_ Himg]. exact Himg.
Qed.

Lemma filter_negb_perm {A} (f : A -> bool) (l : list A) :
  List.filter f l ++ List.filter (fun y => negb (f y)) l ≡ₚ l.
Proof.
  induction l as [|x l IH]; [reflexivity|]. cbn [List.filter].
  destruct (f x); cbn [negb app].
  - rewrite IH. reflexivity.
  - rewrite <- Permutation_middle, IH. reflexivity.
Qed.

Lemma sidebar_tags_perm (all_tags : list string) (favs : gset string) :
  favorite_tags all_tags favs ++ nonfavorite_tags all_tags favs ≡ₚ all_tags.
Proof.
  unfold favorite_tags, nonfavorite_tags.
  rewrite !sorted_perm. apply filter_negb_perm.
Qed.

(** X18.  The sidebar lists every tag once: the favorites first, then the
    others, each part in code-point order. *)
Theorem sidebar_lists_every_tag (all_tags : list string) (favs : gset string) :
  favorite_tags all_tags favs ++ nonfavorite_tags all_tags favs ≡ₚ all_tags
  /\ Forall (fun t => t ∈ favs) (favorite_tags all_tags favs)
  /\ Forall (fun t => t ∉ favs) (nonfavorite_tags all_tags favs)
  /\ Sorted (fun a b => str_leb a b = true) (favorite_tags all_tags favs)
  /\ Sorted (fun a b => str_leb a b = true) (nonfavorite_tags all_tags favs).
Proof.
  unfold favorite_tags, nonfavorite_tags.
  split; [rewrite !sorted_perm; apply filter_negb_perm|].
  split; [|split; [|split; apply sorted_Sorted]].
  - apply Forall_forall. intros t Ht. rewrite sorted_perm in Ht.
    apply list_elem_of_In, filter_In in Ht as [_ Ht].
    apply bool_decide_eq_true in Ht. exact Ht.
  - apply Forall_forall. intros t Ht. rewrite sorted_perm in Ht.
    apply list_elem_of_In, filter_In in Ht as [_ Ht].
    apply negb_true_iff, bool_decide_eq_false in Ht. exact Ht.
Qed.

Lemma render_tag_checkbox_spec tag new_val favs :
  exists favs', render_tag_checkbox tag new_val favs = Ok favs'
    /\ forall t, t ∈ favs'
                 <-> (t = tag /\ new_val = true) \/ (t <> tag /\ t ∈ favs).
Proof.
  unfold render_tag_checkbox, set_remove.
  destruct new_val, (bool_decide (tag ∈ favs)) eqn:E; cbn; rewrite ?E;
    try apply bool_decide_eq_true in E; try apply bool_decide_eq_false in E;
    eexists; (split; [reflexivity|]); intros t.
  - destruct (decide (t = tag)) as [->|]; intuition congruence.
  - rewrite elem_of_union, elem_of_singleton.
    destruct (decide (t = tag)) as [->|]; intuition congruence.
  - rewrite elem_of_difference, elem_of_singleton.
    destruct (decide (t = tag)) as [->|]; intuition congruence.
  - destruct (decide (t = tag)) as [->|]; intuition congruence.
Qed.

Lemma render_tags_spec (checked : string -> bool) L : forall favs,
  exists favs', render_tags checked L favs = Ok favs'
    /\ forall t, t ∈ favs'
                 <-> (In t L /\ checked t = true) \/ (~ In t L /\ t ∈ favs).
Proof.
  induction L as [|x L IH]; intros favs; cbn [render_tags].
  - exists favs. split; [reflexivity|]. intros t. cbn. intuition.
  - destruct (render_tag_checkbox_spec x (checked x) favs) as (f1 & -> & H1).
    destruct (IH f1) as (f2 & -> & H2). exists f2. split; [reflexivity|].
    intros t. rewrite H2, H1. cbn [In].
    destruct (in_dec string_dec t L), (decide (t = x)) as [->|Hne];
      intuition congruence.
Qed.

(** X19.  Rendering the sidebar never raises: [set.remove] is only reached
    for a tag that is in the set.  Afterwards a tag of the vocabulary is a
    favorite exactly when its checkbox is checked, and the favorites that
    are not in the vocabulary are as they were. *)
Theorem render_sidebar_follows_checkboxes
    (all_tags : list string) (checked : string -> bool) (favs : gset string) :
  exists favs',
    render_sidebar all_tags checked favs = Ok favs'
    /\ forall t, t ∈ favs'
         <-> (In t all_tags /\ checked t = true)
             \/ (~ In t all_tags /\ t ∈ favs).
Proof.
  unfold render_sidebar.
  destruct (render_tags_spec checked (favorite_tags all_tags favs) favs)
    as (f1 & -> & H1).
  destruct (render_tags_spec checked (nonfavorite_tags all_tags favs) f1)
    as (f2 & -> & H2).
  exists f2. split; [reflexivity|]. intros t. rewrite H2, H1.
  assert (Hin : In t (favorite_tags all_tags favs ++ nonfavorite_tags all_tags favs)
                <-> In t all_tags).
  { rewrite <- !list_elem_of_In.
    rewrite (sidebar_tags_perm all_tags favs). reflexivity. }
  rewrite <- Hin, in_app_iff.
  destruct (in_dec string_dec t (favorite_tags all_tags favs)),
           (in_dec string_dec t (nonfavorite_tags all_tags favs));
    intuition congruence.
Qed.

Lemma py_slice_row {A} (l : list A) i :
  py_slice l i (i + num_cols) = take num_cols (drop i l).
Proof. unfold py_slice. f_equal. lia. Qed.

Lemma thumbnail_rows_from (l : list image) : forall fuel start,
  length l <= start + fuel ->
  concat (map (fun row_i => py_slice l row_i (row_i + num_cols))
              (py_range fuel start (length l) num_cols))
  = drop start l.
Proof.
  induction fuel as [|k IH]; intros start Hlen; cbn [py_range].
  - cbn. rewrite drop_ge by lia. reflexivity.
  - destruct (start <? length l)%nat eqn:E.
    + cbn [map concat]. rewrite IH by (unfold num_cols; lia).
      rewrite py_slice_row, <- drop_drop. apply take_drop.
    + apply Nat.ltb_ge in E. cbn. rewrite drop_ge by lia. reflexivity.
Qed.

Lemma thumbnail_rows_length (l : list image) : forall fuel start,
  Forall (fun row : list image => 0 < length row <= num_cols)
         (map (fun row_i => py_slice l row_i (row_i + num_cols))
              (py_range fuel start (length l) num_cols)).
Proof.
  induction fuel as [|k IH]; intros start; cbn [py_range]; [constructor|].
  destruct (start <? length l)%nat eqn:E; [|constructor].
  apply Nat.ltb_lt in E. cbn [map]. constructor; [|apply IH].
  rewrite py_slice_row, length_take, length_drop. unfold num_cols. lia.
Qed.

(** X20.  The rows of the thumbnail grid hold every filtered image once,
    in order; no row is empty and none has more images than the grid has
    columns, so [cols[col_i]] is always in range. *)
Theorem thumbnail_rows_cover (filtered_images : list image) :
  concat (thumbnail_rows filtered_images) = filtered_images
  /\ Forall (fun row : list image => 0 < length row <= num_cols)
            (thumbnail_rows filtered_images).
Proof.
  unfold thumbnail_rows. split; [|apply thumbnail_rows_length].
  rewrite thumbnail_rows_from by lia. reflexivity.
Qed.

(* ===================================================================== *)
(** * Entries with a missing or malformed ["mtime"] *)
(* ===================================================================== *)




Lemma scan_loop_raise_at (d : gmap string jvalue) p f files : forall l w,
  NoDup (map fst files) -> In (p, f) files ->
  cache_dict l !! p = d !! p ->
  (forall l' w', cache_dict l' !! p = d !! p ->
                 exists e, visit_png p f l' w' = (Raise e, w')) ->
  exists e w', scan_loop files l w = (Raise e, w').
Proof.
  induction files as [|[q g] files IH]; intros l w Hnd Hin Hl Hbad;
    [destruct Hin|].
  cbn [map fst] in Hnd. apply NoDup_cons in Hnd as [Hq Hnd].
  rewrite list_elem_of_In in Hq. rewrite scan_loop_cons.
  destruct Hin as [[= -> ->]|Hin].
  - destruct (Hbad l w Hl) as (e & ->). eauto.
  - assert (Hne : q <> p).
    { intros ->. apply Hq, in_map_iff. exists (p, f). auto. }
    destruct (visit_png q g l w) as [[la|e] wa] eqn:Hv; [|eauto].
    apply (IH la wa Hnd Hin); [|exact Hbad].
    rewrite <- Hl.
    assert (Hone : scan_loop [(q, g)] l w = (Ok la, wa))
      by (rewrite scan_loop_cons, Hv; reflexivity).
    destruct (scan_loop_frame _ _ _ _ _ Hone) as [Hf _]. apply Hf.
    cbn. intros [Heq|[]]. exact (Hne Heq).
Qed.

(** X22.  When the entry of an observed file has an ["mtime"] that is not
    a number, the scan raises [TypeError] at the subtraction, whatever the
    file's time, and the cache file stays as it was. *)
Theorem non_numeric_mtime_raises
    (fs : filesystem) (root_dir : string) (w : world)
    (d : gmap string jvalue) (p : string) (f : file) (m : float)
    (old : option (list string)) :
  disk w = Stored d ->
  NoDup (map fst (observed fs root_dir)) ->
  In (p, f) (observed fs root_dir) ->
  f_mtime f = Some m ->
  d !! p = Some (JObject old (Some JNotNum)) ->
  (forall l' w', cache_dict l' !! p = d !! p ->
                 visit_png p f l' w' = (Raise TypeError, w'))
  /\ exists e w', load_images_and_tags fs root_dir w = (Raise e, w')
                  /\ disk w' = disk w.
Proof.
  intros Hd Hnd Hin Hm Hp.
  assert (Hbad : forall l' w', cache_dict l' !! p = d !! p ->
                   visit_png p f l' w' = (Raise TypeError, w')).
  { intros l' w' Hl. unfold visit_png, os_path_getmtime, bind, lift, ret.
    rewrite Hm, Hl, Hp. reflexivity. }
  split; [exact Hbad|].
  destruct (scan_loop_raise_at d p f _ (mkLocals d [] ∅) w Hnd Hin eq_refl)
    as (e & w' & Hrun).
  { intros l' w' Hl. exists TypeError. apply Hbad, Hl. }
  apply (load_images_and_tags_raises fs root_dir w e w').
  rewrite Hd. exact Hrun.
Qed.

Lemma non_numeric_mtime_raises_witness :
  exists e w', load_images_and_tags demo_fs "/pics" bad_mtime_world = (Raise e, w')
               /\ disk w' = disk bad_mtime_world.
Proof.
  apply (non_numeric_mtime_raises demo_fs "/pics" bad_mtime_world
           {[ "/pics/a.png" := JObject (Some ["old"]) (Some JNotNum) ]}
           "/pics/a.png"
           (mkFile (Some t1)
              (PngImage (Some ["cat, (dog:1.2)"; "Negative prompt: blurry"])))
           t1 (Some ["old"])).
  - reflexivity.
  - exact demo_fs_NoDup.
  - rewrite demo_fs_observed. left. reflexivity.
  - reflexivity.
  - vm_compute. reflexivity.
Defined.

(* ===================================================================== *)
(** * Directories that cannot be listed *)
(* ===================================================================== *)

Lemma os_walk_unfold top es :
  os_walk top (Dir (Some es))
  = (top, dirnames es, filenames es) :: walk_subdirs top es.
Proof.
  cbn [os_walk]. f_equal. unfold walk_subdirs.
  induction es as [|[name c] es IH]; [reflexivity|].
  cbn [flat_map fst snd]. rewrite <- IH. destruct c; reflexivity.
Qed.

Lemma observed_unfold fs root_dir :
  observed fs root_dir = observed_in (walk fs root_dir).
Proof. reflexivity. Qed.

Lemma filenames_app es1 es2 :
  filenames (es1 ++ es2) = filenames es1 ++ filenames es2.
Proof. unfold filenames. apply flat_map_app. Qed.

(** X23.  A sub-directory of the root that cannot be listed is skipped
    silently: the scan observes the same files as if it were not there. *)
Theorem unlistable_subdirectory_is_skipped
    (fs fs' : filesystem) (root_dir name : string)
    (es1 es2 : list (string * node)) :
  fs root_dir = Some (Dir (Some (es1 ++ (name, Dir None) :: es2))) ->
  fs' root_dir = Some (Dir (Some (es1 ++ es2))) ->
  observed fs root_dir = observed fs' root_dir.
Proof.
  intros H H'. rewrite !observed_unfold. unfold walk. rewrite H, H'.
  rewrite !os_walk_unfold. unfold observed_in. cbn [flat_map fst snd].
  f_equal.
  - rewrite !filenames_app. reflexivity.
  - unfold walk_subdirs. rewrite !flat_map_app. reflexivity.
Qed.

Lemma unlistable_subdirectory_is_skipped_witness :
  observed demo_fs "/pics"
  = observed (fun p => if String.eqb p "/pics"
                       then Some (Dir (Some (removelast (demo_files t1))))
                       else None) "/pics".
Proof.
  apply (unlistable_subdirectory_is_skipped demo_fs _ "/pics" "locked"
           (removelast (demo_files t1)) []); reflexivity.
Defined.
